(** * RWLock: a read-write lock over binary semaphores (rwlock.h)

    The header defines two classes.  [Semaphore] is a counter [m_avail]
    guarded by a mutex and a condition variable; [RWLock] owns four
    semaphores and two plain [long] counters and implements the three
    classical readers-writers protocols, selected by [m_mode].

    Both member functions of [Semaphore] touch [m_avail] only while they
    hold [m_mutex], and [m_cv.wait(lock, pred)] re-evaluates its predicate
    under that mutex, so a call of [Acquire] or [Release] is one atomic
    action on [m_avail]: a step that is enabled or not.  The private member
    functions of [RWLock] are sequences of such calls and of guarded counter
    updates; they are kept as statement lists, so that the state of a thread
    inside a call is the list of statements it has still to run, and threads
    are interleaved statement by statement.

    [m_readcount] and [m_writecount] are plain [long]s.  An update of one of
    them is taken as one action; lemma [race_free] shows that no two threads
    are ever about to update the same counter, so that nothing is lost by
    it.  Signed overflow is undefined: the model has no step for it, and
    lemma [counters_defined] shows that with no more than [LONG_MAX] threads
    such a step is never the next one. *)

From Stdlib Require Import ZArith Lia List Bool.
From stdpp Require Import base option list.

Open Scope Z_scope.

(** ** Machine integers (LLP64: 64-bit [size_t], 32-bit [long]) *)

Definition SIZE_BITS : Z := 64.

(** Unsigned arithmetic on [size_t] wraps around. *)
Definition size_t (z : Z) : Z := z mod 2 ^ SIZE_BITS.

Definition LONG_MAX : Z := 2 ^ 31 - 1.
Definition LONG_MIN : Z := - 2 ^ 31.

(** ** What a call can do: return, wait, or leave defined behaviour *)

Inductive outcome (A : Type) : Type :=
| Done (a : A)
| Waits
| Undefined.
Arguments Done {A} a.
Arguments Waits {A}.
Arguments Undefined {A}.

#[global] Instance outcome_ret : MRet outcome := fun A a => Done a.
#[global] Instance outcome_bind : MBind outcome := fun A B f m =>
  match m with
  | Done a => f a
  | Waits => Waits
  | Undefined => Undefined
  end.

(** ** class Semaphore *)

Module Semaphore.

Record t : Type := mk { m_avail : Z }.

(** [size_t m_avail{ 1 }; // binary semaphore] *)
Definition init : t := {| m_avail := 1 |}.

(** [m_cv.wait(lock, [this] { return m_avail > 0; }); m_avail--;] *)
Definition Acquire (s : t) : outcome t :=
  if 0 <? m_avail s
  then Done {| m_avail := size_t (m_avail s - 1) |}
  else Waits.

(** [m_avail++;] under the lock guard, then [m_cv.notify_one()]. *)
Definition Release (s : t) : t :=
  {| m_avail := size_t (m_avail s + 1) |}.

(** A value of type [size_t]. *)
Definition in_range (s : t) : Prop := 0 <= m_avail s < 2 ^ SIZE_BITS.

(** Calls made one after the other on one semaphore. *)
Inductive call : Type := CAcquire | CRelease.

Definition do_call (c : call) (s : t) : outcome t :=
  match c with
  | CAcquire => Acquire s
  | CRelease => Done (Release s)
  end.

Fixpoint run (cs : list call) (s : t) : outcome t :=
  match cs with
  | [] => Done s
  | c :: cs' => s' ← do_call c s; run cs' s'
  end.

(** Every [Release] answers an [Acquire] made before it: [held] counts
    the acquisitions not yet released. *)
Fixpoint answered (held : nat) (cs : list call) : bool :=
  match cs with
  | [] => true
  | CAcquire :: cs' => answered (S held) cs'
  | CRelease :: cs' =>
      match held with
      | O => false
      | S h => answered h cs'
      end
  end.

End Semaphore.

(** ** enum RWLockMode

    An unscoped enumeration: a value of the type is an integer, and the
    [switch] statements of [RWLock] give every value other than the first two
    enumerators to their [default] branch. *)

Definition RWLockMode : Type := Z.
Definition ReadersPriority : RWLockMode := 0.
Definition WritersPriority : RWLockMode := 1.
Definition FairOrder : RWLockMode := 2.

(** ** class RWLock *)

Module RWLock.

Record t : Type := mk {
  m_mode : RWLockMode;
  m_order : Semaphore.t;
  m_resource : Semaphore.t;
  m_rmutex : Semaphore.t;
  m_wmutex : Semaphore.t;
  m_readcount : Z;
  m_writecount : Z
}.

(** The members a statement can name. *)
Inductive gate : Type := g_order | g_resource | g_rmutex | g_wmutex.
Inductive counter : Type := c_readcount | c_writecount.

#[global] Instance gate_eq_dec : EqDecision gate.
Proof. solve_decision. Defined.
#[global] Instance counter_eq_dec : EqDecision counter.
Proof. solve_decision. Defined.

Definition sem (g : gate) (L : t) : Semaphore.t :=
  match g with
  | g_order => m_order L
  | g_resource => m_resource L
  | g_rmutex => m_rmutex L
  | g_wmutex => m_wmutex L
  end.

Definition set_sem (g : gate) (s : Semaphore.t) (L : t) : t :=
  match g with
  | g_order =>
      mk (m_mode L) s (m_resource L) (m_rmutex L) (m_wmutex L)
         (m_readcount L) (m_writecount L)
  | g_resource =>
      mk (m_mode L) (m_order L) s (m_rmutex L) (m_wmutex L)
         (m_readcount L) (m_writecount L)
  | g_rmutex =>
      mk (m_mode L) (m_order L) (m_resource L) s (m_wmutex L)
         (m_readcount L) (m_writecount L)
  | g_wmutex =>
      mk (m_mode L) (m_order L) (m_resource L) (m_rmutex L) s
         (m_readcount L) (m_writecount L)
  end.

Definition count (k : counter) (L : t) : Z :=
  match k with
  | c_readcount => m_readcount L
  | c_writecount => m_writecount L
  end.

Definition set_count (k : counter) (v : Z) (L : t) : t :=
  match k with
  | c_readcount =>
      mk (m_mode L) (m_order L) (m_resource L) (m_rmutex L) (m_wmutex L)
         v (m_writecount L)
  | c_writecount =>
      mk (m_mode L) (m_order L) (m_resource L) (m_rmutex L) (m_wmutex L)
         (m_readcount L) v
  end.

Definition avail (g : gate) (L : t) : Z := Semaphore.m_avail (sem g L).

(** *** Statements of the private member functions *)

(** [m_g.Acquire();] and [m_g.Release();] *)
Inductive semcall : Type :=
| Acq (g : gate)
| Rel (g : gate).

Inductive stmt : Type :=
| Call (c : semcall)                      (* c;                    *)
| IfPreInc (k : counter) (c : semcall)    (* if (++m_k == 1) c;    *)
| IfPreDec (k : counter) (c : semcall).   (* if (--m_k == 0) c;    *)

Definition code : Type := list stmt.

(** What an atomic action did; [EvInc] and [EvDec] carry the value the
    counter was given. *)
Inductive event : Type :=
| EvCall (c : semcall)
| EvInc (k : counter) (v : Z)
| EvDec (k : counter) (v : Z).

Definition do_call (c : semcall) (L : t) : outcome t :=
  match c with
  | Acq g => s ← Semaphore.Acquire (sem g L); mret (set_sem g s L)
  | Rel g => mret (set_sem g (Semaphore.Release (sem g L)) L)
  end.

(** [++m_k] on a [long]: signed overflow is undefined. *)
Definition pre_inc (k : counter) (L : t) : outcome (t * Z) :=
  let v := count k L in
  if v <? LONG_MAX then mret (set_count k (v + 1) L, v + 1) else Undefined.

Definition pre_dec (k : counter) (L : t) : outcome (t * Z) :=
  let v := count k L in
  if LONG_MIN <? v then mret (set_count k (v - 1) L, v - 1) else Undefined.

(** One atomic action of a statement.  A guarded call whose guard holds
    is left in front of the rest of the code: the counter update and the
    semaphore call are two actions. *)
Definition step_stmt (s : stmt) (L : t) : outcome (t * code * event) :=
  match s with
  | Call c => L' ← do_call c L; mret (L', [], EvCall c)
  | IfPreInc k c =>
      '(L', v) ← pre_inc k L;
      mret (L', if v =? 1 then [Call c] else [], EvInc k v)
  | IfPreDec k c =>
      '(L', v) ← pre_dec k L;
      mret (L', if v =? 0 then [Call c] else [], EvDec k v)
  end.

(** A statement run to its end by a caller that is alone. *)
Definition exec_stmt (s : stmt) (L : t) : outcome (t * list event) :=
  match s with
  | Call c => L' ← do_call c L; mret (L', [EvCall c])
  | IfPreInc k c =>
      '(L1, v) ← pre_inc k L;
      if v =? 1
      then L2 ← do_call c L1; mret (L2, [EvInc k v; EvCall c])
      else mret (L1, [EvInc k v])
  | IfPreDec k c =>
      '(L1, v) ← pre_dec k L;
      if v =? 0
      then L2 ← do_call c L1; mret (L2, [EvDec k v; EvCall c])
      else mret (L1, [EvDec k v])
  end.

Fixpoint exec (c : code) (L : t) : outcome (t * list event) :=
  match c with
  | [] => mret (L, [])
  | s :: c' =>
      '(L1, tr1) ← exec_stmt s L;
      '(L2, tr2) ← exec c' L1;
      mret (L2, tr1 ++ tr2)
  end.

(** *** The private member functions *)

Definition AcquireExclusive1 : code :=
  [ Call (Acq g_resource) ].

Definition AcquireExclusive2 : code :=
  [ Call (Acq g_wmutex);
    IfPreInc c_writecount (Acq g_order);
    Call (Rel g_wmutex);
    Call (Acq g_resource) ].

Definition AcquireExclusive3 : code :=
  [ Call (Acq g_order);
    Call (Acq g_resource);
    Call (Rel g_order) ].

Definition ReleaseExclusive1 : code :=
  [ Call (Rel g_resource) ].

Definition ReleaseExclusive2 : code :=
  [ Call (Rel g_resource);
    Call (Acq g_wmutex);
    IfPreDec c_writecount (Rel g_order);
    Call (Rel g_wmutex) ].

Definition ReleaseExclusive3 : code :=
  [ Call (Rel g_resource) ].

Definition AcquireShared1 : code :=
  [ Call (Acq g_rmutex);
    IfPreInc c_readcount (Acq g_resource);
    Call (Rel g_rmutex) ].

Definition AcquireShared2 : code :=
  [ Call (Acq g_order);
    Call (Acq g_rmutex);
    IfPreInc c_readcount (Acq g_resource);
    Call (Rel g_rmutex);
    Call (Rel g_order) ].

Definition AcquireShared3 : code :=
  [ Call (Acq g_order);
    Call (Acq g_rmutex);
    IfPreInc c_readcount (Acq g_resource);
    Call (Rel g_order);
    Call (Rel g_rmutex) ].

Definition ReleaseShared1 : code :=
  [ Call (Acq g_rmutex);
    IfPreDec c_readcount (Rel g_resource);
    Call (Rel g_rmutex) ].

Definition ReleaseShared2 : code :=
  [ Call (Acq g_rmutex);
    IfPreDec c_readcount (Rel g_resource);
    Call (Rel g_rmutex) ].

Definition ReleaseShared3 : code :=
  [ Call (Acq g_rmutex);
    IfPreDec c_readcount (Rel g_resource);
    Call (Rel g_rmutex) ].

(** *** The public interface *)

(** [RWLock(RWLockMode mode = FairOrder) : m_mode(mode) {}]; the other
    members take their default member initialisers. *)
Definition construct (mode : option RWLockMode) : t :=
  {| m_mode := default FairOrder mode;
     m_order := Semaphore.init;
     m_resource := Semaphore.init;
     m_rmutex := Semaphore.init;
     m_wmutex := Semaphore.init;
     m_readcount := 0;
     m_writecount := 0 |}.

(** [switch (m_mode)] with its two [case] labels and its [default]. *)
Definition switch {A : Type} (mode : RWLockMode) (c1 c2 c3 : A) : A :=
  if mode =? ReadersPriority then c1
  else if mode =? WritersPriority then c2
  else c3.

Definition AcquireExclusive (L : t) : code :=
  switch (m_mode L) AcquireExclusive1 AcquireExclusive2 AcquireExclusive3.

Definition ReleaseExclusive (L : t) : code :=
  switch (m_mode L) ReleaseExclusive1 ReleaseExclusive2 ReleaseExclusive3.

Definition AcquireShared (L : t) : code :=
  switch (m_mode L) AcquireShared1 AcquireShared2 AcquireShared3.

Definition ReleaseShared (L : t) : code :=
  switch (m_mode L) ReleaseShared1 ReleaseShared2 ReleaseShared3.

End RWLock.

(** ** Threads calling one lock

    A thread runs a list of calls of the four public member functions, as
    the functions [reader] and [writer] of the header's usage example do.
    Its state is the call it entered last, the statements of that call it
    has still to run, and the calls it has still to make. *)

Inductive op : Type :=
| OpAcquireShared
| OpReleaseShared
| OpAcquireExclusive
| OpReleaseExclusive.

(** The statements a call of [o] on the lock [L] runs. *)
Definition method (o : op) (L : RWLock.t) : RWLock.code :=
  match o with
  | OpAcquireShared => RWLock.AcquireShared L
  | OpReleaseShared => RWLock.ReleaseShared L
  | OpAcquireExclusive => RWLock.AcquireExclusive L
  | OpReleaseExclusive => RWLock.ReleaseExclusive L
  end.

(** A call made by a caller that is alone, from entry to return. *)
Definition call (o : op) (L : RWLock.t) : outcome (RWLock.t * list RWLock.event) :=
  RWLock.exec (method o L) L.

Record thread : Type := mkThread {
  cur : option op;          (* the call entered last *)
  pc : RWLock.code;         (* what is left of it; [[]] once it returned *)
  todo : list op            (* the calls still to make *)
}.

Record state : Type := mkState {
  lk : RWLock.t;
  pool : list thread
}.

(** A thread between two calls enters the next one. *)
Definition fetch (L : RWLock.t) (t : thread) : option thread :=
  match pc t with
  | [] =>
      match todo t with
      | [] => None
      | o :: r => Some {| cur := Some o; pc := method o L; todo := r |}
      end
  | _ :: _ => Some t
  end.

(** One atomic action of a thread; [None] when the thread has finished,
    waits on a semaphore, or would overflow a counter. *)
Definition thread_step (L : RWLock.t) (t : thread) : option (RWLock.t * thread) :=
  t1 ← fetch L t;
  match pc t1 with
  | [] => None
  | s :: c =>
      match RWLock.step_stmt s L with
      | Done (L', pushed, _) =>
          Some (L', {| cur := cur t1; pc := pushed ++ c; todo := todo t1 |})
      | Waits | Undefined => None
      end
  end.

(** Thread [i] of the pool makes a step. *)
Definition step_thread (i : nat) (st : state) : option state :=
  t ← pool st !! i;
  '(L', t') ← thread_step (lk st) t;
  Some {| lk := L'; pool := <[i := t']> (pool st) |}.

(** An interleaving names the thread that moves at each instant. *)
Fixpoint run (sched : list nat) (st : state) : option state :=
  match sched with
  | [] => Some st
  | i :: sched' => st' ← step_thread i st; run sched' st'
  end.

Definition spawn (p : list op) : thread :=
  {| cur := None; pc := []; todo := p |}.

Definition init (mode : RWLockMode) (progs : list (list op)) : state :=
  {| lk := RWLock.construct (Some mode); pool := spawn <$> progs |}.

(** Calls come in pairs, as in [reader] and [writer]: an acquisition, then
    its release, and no acquisition in between. *)
Fixpoint paired (p : list op) : bool :=
  match p with
  | [] => true
  | OpAcquireShared :: OpReleaseShared :: p' => paired p'
  | OpAcquireExclusive :: OpReleaseExclusive :: p' => paired p'
  | _ => false
  end.

(** A thread is between [AcquireExclusive] and its [ReleaseExclusive] when
    the former has returned and the latter has not yet done anything; the
    same for the shared pair. *)
Definition returned (o : op) (t : thread) : bool :=
  match cur t, pc t with
  | Some o', [] =>
      match o, o' with
      | OpAcquireShared, OpAcquireShared
      | OpReleaseShared, OpReleaseShared
      | OpAcquireExclusive, OpAcquireExclusive
      | OpReleaseExclusive, OpReleaseExclusive => true
      | _, _ => false
      end
  | _, _ => false
  end.

Definition in_exclusive (t : thread) : bool := returned OpAcquireExclusive t.
Definition in_shared (t : thread) : bool := returned OpAcquireShared t.

(** A thread that has made all its calls. *)
Definition finished (t : thread) : bool :=
  match pc t, todo t with
  | [], [] => true
  | _, _ => false
  end.

(** ** Bookkeeping for the invariant *)

(** The three protocols, by the suffix of the private functions. *)
Inductive variant : Type := First | Second | Third.

Definition variant_of (mode : RWLockMode) : variant :=
  RWLock.switch mode First Second Third.

Definition body (v : variant) (o : op) : RWLock.code :=
  match v, o with
  | First, OpAcquireShared => RWLock.AcquireShared1
  | Second, OpAcquireShared => RWLock.AcquireShared2
  | Third, OpAcquireShared => RWLock.AcquireShared3
  | First, OpReleaseShared => RWLock.ReleaseShared1
  | Second, OpReleaseShared => RWLock.ReleaseShared2
  | Third, OpReleaseShared => RWLock.ReleaseShared3
  | First, OpAcquireExclusive => RWLock.AcquireExclusive1
  | Second, OpAcquireExclusive => RWLock.AcquireExclusive2
  | Third, OpAcquireExclusive => RWLock.AcquireExclusive3
  | First, OpReleaseExclusive => RWLock.ReleaseExclusive1
  | Second, OpReleaseExclusive => RWLock.ReleaseExclusive2
  | Third, OpReleaseExclusive => RWLock.ReleaseExclusive3
  end.

(** Every list of statements a call can be left with: the suffixes of its
    body, and those with a guarded call in front whose guard held. *)
Fixpoint conts (c : RWLock.code) : list RWLock.code :=
  c ::
  match c with
  | [] => []
  | s :: c' =>
      match s with
      | RWLock.Call _ => conts c'
      | RWLock.IfPreInc _ x | RWLock.IfPreDec _ x =>
          (RWLock.Call x :: c') :: conts c'
      end
  end.

(** Releases of [g] less acquisitions of [g] among the calls in [c]. *)
Fixpoint debt (g : RWLock.gate) (c : RWLock.code) : Z :=
  match c with
  | [] => 0
  | RWLock.Call (RWLock.Rel g') :: c' =>
      (if decide (g' = g) then 1 else 0) + debt g c'
  | RWLock.Call (RWLock.Acq g') :: c' =>
      (if decide (g' = g) then -1 else 0) + debt g c'
  | _ :: c' => debt g c'
  end.

(** Decrements of [k] less increments of [k] in [c]. *)
Fixpoint undone (k : RWLock.counter) (c : RWLock.code) : Z :=
  match c with
  | [] => 0
  | RWLock.IfPreDec k' _ :: c' =>
      (if decide (k' = k) then 1 else 0) + undone k c'
  | RWLock.IfPreInc k' _ :: c' =>
      (if decide (k' = k) then -1 else 0) + undone k c'
  | _ :: c' => undone k c'
  end.

(** What a thread holds of [g] in its own name once [o] has returned: a
    writer holds the resource; a reader holds it through [m_readcount]. *)
Definition end_hold (g : RWLock.gate) (o : op) : Z :=
  match o, g with
  | OpAcquireExclusive, RWLock.g_resource => 1
  | _, _ => 0
  end.

(** Whether a thread is counted in [k] once [o] has returned. *)
Definition end_counted (v : variant) (k : RWLock.counter) (o : op) : Z :=
  match o, k, v with
  | OpAcquireShared, RWLock.c_readcount, _ => 1
  | OpAcquireExclusive, RWLock.c_writecount, Second => 1
  | _, _, _ => 0
  end.

(** Units of [g] the thread holds in its own name; [-1] when it has
    counted itself first and is about to take [g] for its group. *)
Definition hold (g : RWLock.gate) (t : thread) : Z :=
  match cur t with
  | None => 0
  | Some o => end_hold g o + debt g (pc t)
  end.

Definition counted (v : variant) (k : RWLock.counter) (t : thread) : Z :=
  match cur t with
  | None => 0
  | Some o => end_counted v k o + undone k (pc t)
  end.

(** The unit of [g] held for a group: the resource for the readers while
    [m_readcount] is positive, the order gate for the writers of the second
    protocol while [m_writecount] is. *)
Definition group (g : RWLock.gate) (L : RWLock.t) : Z :=
  match g with
  | RWLock.g_resource => if 0 <? RWLock.m_readcount L then 1 else 0
  | RWLock.g_order => if 0 <? RWLock.m_writecount L then 1 else 0
  | _ => 0
  end.

(** The counter that decides whether the group holds [g]. *)
Definition group_count (g : RWLock.gate) : option RWLock.counter :=
  match g with
  | RWLock.g_resource => Some RWLock.c_readcount
  | RWLock.g_order => Some RWLock.c_writecount
  | _ => None
  end.

(** The semaphore under which a counter is updated. *)
Definition guard (k : RWLock.counter) : RWLock.gate :=
  match k with
  | RWLock.c_readcount => RWLock.g_rmutex
  | RWLock.c_writecount => RWLock.g_wmutex
  end.

Definition todo_ok (o : op) (p : list op) : bool :=
  match o with
  | OpAcquireShared | OpAcquireExclusive => paired (o :: p)
  | OpReleaseShared | OpReleaseExclusive => paired p
  end.

(** A thread stands between two calls or at a position of its call. *)
Definition in_call (v : variant) (t : thread) : Prop :=
  match cur t with
  | None => pc t = []
  | Some o => In (pc t) (conts (body v o))
  end.

Definition todo_paired (t : thread) : bool :=
  match cur t with
  | None => paired (todo t)
  | Some o => todo_ok o (todo t)
  end.

(** The states a thread with a paired program can be in. *)
Definition wf_thread (v : variant) (t : thread) : Prop :=
  in_call v t /\ todo_paired t = true.

(** A thread about to take [g] for its group, and the units it holds
    otherwise. *)
Definition pend (g : RWLock.gate) (t : thread) : Z :=
  if hold g t <? 0 then 1 else 0.

Definition hpos (g : RWLock.gate) (t : thread) : Z := Z.max 0 (hold g t).

(** Sum of [f] over the threads of a pool. *)
Definition sumZ {A : Type} (f : A -> Z) (l : list A) : Z :=
  foldr (fun a acc => f a + acc) 0 l.

(** The next statement a thread runs. *)
Definition next_stmt (L : RWLock.t) (t : thread) : option RWLock.stmt :=
  t1 ← fetch L t; head (pc t1).

Definition touches (k : RWLock.counter) (s : RWLock.stmt) : bool :=
  match s with
  | RWLock.Call _ => false
  | RWLock.IfPreInc k' _ | RWLock.IfPreDec k' _ => bool_decide (k' = k)
  end.

(** What one step of one thread does to the quantities of the invariant. *)
Record local_step (v : variant) (L : RWLock.t) (t0 : thread)
    (L' : RWLock.t) (t' : thread) : Prop := {
  ls_wf : wf_thread v t';
  ls_mode : RWLock.m_mode L' = RWLock.m_mode L;
  ls_avail : forall g, 0 <= RWLock.avail g L';
  ls_gate : forall g,
    RWLock.avail g L' + hold g t' + group g L'
    = RWLock.avail g L + hold g t0 + group g L;
  ls_count : forall k,
    RWLock.count k L' - counted v k t' = RWLock.count k L - counted v k t0;
  ls_pending : forall g k,
    group_count g = Some k -> hold g t' < 0 -> RWLock.count k L' = 1;
  ls_guard : forall k,
    RWLock.count k L' <> RWLock.count k L -> hold (guard k) t0 = 1
}.

(** What holds of a well-formed thread wherever it stands. *)
Record static (v : variant) (L : RWLock.t) (t : thread) : Prop := {
  st_hold : forall g, -1 <= hold g t <= 1;
  st_guard : forall k, 0 <= hold (guard k) t;
  st_counted : forall k, 0 <= counted v k t <= 1;
  st_pending : forall g k,
    group_count g = Some k -> hold g t < 0 ->
    hold (guard k) t = 1 /\ counted v k t = 1;
  st_touch : forall k s,
    next_stmt L t = Some s -> touches k s = true -> hold (guard k) t = 1;
  st_inc : forall k c,
    next_stmt L t = Some (RWLock.IfPreInc k c) -> counted v k t = 0;
  st_dec : forall k c,
    next_stmt L t = Some (RWLock.IfPreDec k c) -> counted v k t = 1
}.

(** The invariant of a lock used by threads with paired programs. *)
Record Inv (v : variant) (st : state) : Prop := {
  inv_mode : variant_of (RWLock.m_mode (lk st)) = v;
  inv_wf : Forall (wf_thread v) (pool st);
  inv_range : forall g, 0 <= RWLock.avail g (lk st) <= 1;
  inv_gate : forall g,
    RWLock.avail g (lk st) + sumZ (hold g) (pool st) + group g (lk st) = 1;
  inv_count : forall k,
    RWLock.count k (lk st) = sumZ (counted v k) (pool st);
  inv_pending : forall g k i t,
    group_count g = Some k -> pool st !! i = Some t -> hold g t < 0 ->
    RWLock.count k (lk st) = 1
}.

(** ** Calls run from entry to return *)

Definition set_avail (g : RWLock.gate) (a : Z) (L : RWLock.t) : RWLock.t :=
  RWLock.set_sem g {| Semaphore.m_avail := a |} L.

(** Every semaphore of the lock can be decremented to no less than zero and
    incremented without wrapping. *)
Definition no_wrap (L : RWLock.t) : bool :=
  forallb (fun g => (0 <=? RWLock.avail g L)
                    && (RWLock.avail g L + 1 <? 2 ^ SIZE_BITS))
    [RWLock.g_order; RWLock.g_resource; RWLock.g_rmutex; RWLock.g_wmutex].

(** The code [c], run on [L] by a caller that is alone, returns exactly
    when [enabled] holds; it then leaves the lock [L'] and has done the
    actions [tr], in that order. *)
Definition runs (c : RWLock.code) (L : RWLock.t) (enabled : Prop)
    (L' : RWLock.t) (tr : list RWLock.event) : Prop :=
  (enabled -> RWLock.exec c L = Done (L', tr))
  /\ (forall r, RWLock.exec c L = Done r -> enabled).

(** An action done only when the counter was given the value [n]. *)
Definition when_eq (v n : Z) (e : RWLock.event) : list RWLock.event :=
  if v =? n then [e] else [].

(** The protocol of [ReleaseShared] in the words of the specification:
    acquire readerMutex, decrement readCount, release resourceGate if and
    only if readCount reached 0, release readerMutex. *)
Definition ReleaseShared_protocol (L : RWLock.t) : outcome RWLock.t :=
  rm ← Semaphore.Acquire (RWLock.m_rmutex L);
  let n := RWLock.m_readcount L - 1 in
  let res := if n =? 0 then Semaphore.Release (RWLock.m_resource L)
             else RWLock.m_resource L in
  mret {| RWLock.m_mode := RWLock.m_mode L;
          RWLock.m_order := RWLock.m_order L;
          RWLock.m_resource := res;
          RWLock.m_rmutex := Semaphore.Release rm;
          RWLock.m_wmutex := RWLock.m_wmutex L;
          RWLock.m_readcount := n;
          RWLock.m_writecount := RWLock.m_writecount L |}.

(** ** A run of the usage example

    A reader and a writer on a [FairOrder] lock: the reader enters, the
    writer queues behind it and waits on the resource, the reader leaves,
    the writer enters, and finally leaves. *)

Definition reader : list op := [OpAcquireShared; OpReleaseShared].
Definition writer : list op := [OpAcquireExclusive; OpReleaseExclusive].

Definition demo_progs : list (list op) := [reader; writer].

Definition demo_writing : list nat :=
  [0; 0; 0; 0; 0; 0; 1; 0; 0; 0; 0; 1; 1]%nat.

Definition demo_complete : list nat := demo_writing ++ [1%nat].

Definition demo_state_writing : state :=
  {| lk := {| RWLock.m_mode := FairOrder;
              RWLock.m_order := {| Semaphore.m_avail := 1 |};
              RWLock.m_resource := {| Semaphore.m_avail := 0 |};
              RWLock.m_rmutex := {| Semaphore.m_avail := 1 |};
              RWLock.m_wmutex := {| Semaphore.m_avail := 1 |};
              RWLock.m_readcount := 0;
              RWLock.m_writecount := 0 |};
     pool := [ {| cur := Some OpReleaseShared; pc := []; todo := [] |};
               {| cur := Some OpAcquireExclusive; pc := [];
                  todo := [OpReleaseExclusive] |} ] |}.

Definition demo_state_complete : state :=
  {| lk := RWLock.construct (Some FairOrder);
     pool := [ {| cur := Some OpReleaseShared; pc := []; todo := [] |};
               {| cur := Some OpReleaseExclusive; pc := []; todo := [] |} ] |}.

(** ** Locks as values of their type *)

(** The semaphores hold values of [size_t] and the counters values of
    [long]. *)
Definition sized (L : RWLock.t) : bool :=
  forallb (fun g => (0 <=? RWLock.avail g L)
                    && (RWLock.avail g L <? 2 ^ SIZE_BITS))
    [RWLock.g_order; RWLock.g_resource; RWLock.g_rmutex; RWLock.g_wmutex]
  && forallb (fun k => (LONG_MIN <=? RWLock.count k L)
                       && (RWLock.count k L <=? LONG_MAX))
       [RWLock.c_readcount; RWLock.c_writecount].

(** The largest value of [size_t]. *)
Definition SIZE_MAX : Z := 2 ^ SIZE_BITS - 1.

(** A state of the usage example in which the reader is about to increment
    [m_readcount]. *)
Definition demo_counting : list nat := [0; 0]%nat.

Definition demo_state_counting : state :=
  {| lk := {| RWLock.m_mode := FairOrder;
              RWLock.m_order := {| Semaphore.m_avail := 0 |};
              RWLock.m_resource := {| Semaphore.m_avail := 1 |};
              RWLock.m_rmutex := {| Semaphore.m_avail := 0 |};
              RWLock.m_wmutex := {| Semaphore.m_avail := 1 |};
              RWLock.m_readcount := 0;
              RWLock.m_writecount := 0 |};
     pool := [ {| cur := Some OpAcquireShared;
                  pc := [ RWLock.IfPreInc RWLock.c_readcount
                            (RWLock.Acq RWLock.g_resource);
                          RWLock.Call (RWLock.Rel RWLock.g_order);
                          RWLock.Call (RWLock.Rel RWLock.g_rmutex) ];
                  todo := [OpReleaseShared] |};
               spawn writer ] |}.

(** ** Threads that cannot move *)

(** What holds of a well-formed thread that has no step: what it holds, it
    holds while waiting on a semaphore that is taken. *)
Record blocked (v : variant) (L : RWLock.t) (t : thread) : Prop := {
  b_res : hold RWLock.g_resource t <= 0;
  b_rm : hold RWLock.g_rmutex t = 1 ->
         hold RWLock.g_resource t < 0 /\ RWLock.avail RWLock.g_resource L = 0;
  b_cr : counted v RWLock.c_readcount t = 1 ->
         hold RWLock.g_resource t = 0 ->
         RWLock.avail RWLock.g_rmutex L = 0;
  b_ord : hold RWLock.g_order t = 1 ->
          RWLock.avail RWLock.g_rmutex L = 0
          \/ RWLock.avail RWLock.g_resource L = 0;
  b_cw : counted v RWLock.c_writecount t = 1 ->
         hold RWLock.g_order t = 0 ->
         RWLock.avail RWLock.g_resource L = 0
         \/ RWLock.avail RWLock.g_wmutex L = 0;
  b_wm : hold RWLock.g_wmutex t = 1 ->
         hold RWLock.g_order t < 0 /\ RWLock.avail RWLock.g_order L = 0;
  b_some : finished t = false -> exists g, RWLock.avail g L = 0
}.

(** The atomic actions a statement can still take, at most; and those a
    thread can still take, over the rest of its call and the calls it has
    still to make. *)
Definition weight (s : RWLock.stmt) : Z :=
  match s with
  | RWLock.Call _ => 1
  | RWLock.IfPreInc _ _ | RWLock.IfPreDec _ _ => 2
  end.

Definition code_weight (c : RWLock.code) : Z := sumZ weight c.

Definition left_to_do (v : variant) (t : thread) : Z :=
  code_weight (pc t) + sumZ (fun o => code_weight (body v o)) (todo t).

(** ** Where a thread stands, for the policies *)

(** A thread between two calls whose next call is [o]. *)
Definition arriving (o : op) (t : thread) : bool :=
  match pc t, todo t with
  | [], o' :: _ =>
      match o, o' with
      | OpAcquireShared, OpAcquireShared
      | OpReleaseShared, OpReleaseShared
      | OpAcquireExclusive, OpAcquireExclusive
      | OpReleaseExclusive, OpReleaseExclusive => true
      | _, _ => false
      end
  | _, _ => false
  end.

(** A writer inside [AcquireExclusive2] that has counted itself in
    [m_writecount], released [m_wmutex] and has only
    [m_resource.Acquire()] left. *)
Definition awaiting_resource (t : thread) : bool :=
  match cur t, pc t with
  | Some OpAcquireExclusive, [RWLock.Call (RWLock.Acq RWLock.g_resource)] =>
      true
  | _, _ => false
  end.

(** A writer inside [AcquireExclusive3] that has acquired [m_order] and has
    [m_resource.Acquire(); m_order.Release();] left. *)
Definition queued_writer (t : thread) : bool :=
  match cur t, pc t with
  | Some OpAcquireExclusive,
    [RWLock.Call (RWLock.Acq RWLock.g_resource);
     RWLock.Call (RWLock.Rel RWLock.g_order)] => true
  | _, _ => false
  end.

(** A writer waits on the resource under [WritersPriority] while a reader
    is inside; a second reader arrives. *)
Definition demo_progs3 : list (list op) := [reader; writer; reader].

Definition demo_writer_waits : list nat :=
  [0; 0; 0; 0; 0; 0; 1; 1; 1; 1]%nat.

Definition demo_state_writer_waits : state :=
  {| lk := {| RWLock.m_mode := WritersPriority;
              RWLock.m_order := {| Semaphore.m_avail := 0 |};
              RWLock.m_resource := {| Semaphore.m_avail := 0 |};
              RWLock.m_rmutex := {| Semaphore.m_avail := 1 |};
              RWLock.m_wmutex := {| Semaphore.m_avail := 1 |};
              RWLock.m_readcount := 1;
              RWLock.m_writecount := 1 |};
     pool := [ {| cur := Some OpAcquireShared; pc := [];
                  todo := [OpReleaseShared] |};
               {| cur := Some OpAcquireExclusive;
                  pc := [RWLock.Call (RWLock.Acq RWLock.g_resource)];
                  todo := [OpReleaseExclusive] |};
               spawn reader ] |}.

(** The same arrivals under [FairOrder]: the writer has taken [m_order]. *)
Definition demo_writer_queued : list nat :=
  [0; 0; 0; 0; 0; 0; 1]%nat.

Definition demo_state_writer_queued : state :=
  {| lk := {| RWLock.m_mode := FairOrder;
              RWLock.m_order := {| Semaphore.m_avail := 0 |};
              RWLock.m_resource := {| Semaphore.m_avail := 0 |};
              RWLock.m_rmutex := {| Semaphore.m_avail := 1 |};
              RWLock.m_wmutex := {| Semaphore.m_avail := 1 |};
              RWLock.m_readcount := 1;
              RWLock.m_writecount := 0 |};
     pool := [ {| cur := Some OpAcquireShared; pc := [];
                  todo := [OpReleaseShared] |};
               {| cur := Some OpAcquireExclusive;
                  pc := [RWLock.Call (RWLock.Acq RWLock.g_resource);
                         RWLock.Call (RWLock.Rel RWLock.g_order)];
                  todo := [OpReleaseExclusive] |};
               spawn reader ] |}.

(** The same arrivals under [ReadersPriority]: the writer has not moved,
    for its first statement waits on the resource. *)
Definition demo_reader_inside : list nat := [0; 0; 0; 0]%nat.

Definition demo_state_reader_inside : state :=
  {| lk := {| RWLock.m_mode := ReadersPriority;
              RWLock.m_order := {| Semaphore.m_avail := 1 |};
              RWLock.m_resource := {| Semaphore.m_avail := 0 |};
              RWLock.m_rmutex := {| Semaphore.m_avail := 1 |};
              RWLock.m_wmutex := {| Semaphore.m_avail := 1 |};
              RWLock.m_readcount := 1;
              RWLock.m_writecount := 0 |};
     pool := [ {| cur := Some OpAcquireShared; pc := [];
                  todo := [OpReleaseShared] |};
               spawn writer;
               spawn reader ] |}.

(** The lock as constructed, but with [k] readers inside: they are counted
    in [m_readcount], and the resource is taken if there is one. *)
Definition reading (mode : RWLockMode) (k : Z) : RWLock.t :=
  {| RWLock.m_mode := mode;
     RWLock.m_order := Semaphore.init;
     RWLock.m_resource := {| Semaphore.m_avail := if 0 <? k then 0 else 1 |};
     RWLock.m_rmutex := Semaphore.init;
     RWLock.m_wmutex := Semaphore.init;
     RWLock.m_readcount := k;
     RWLock.m_writecount := 0 |}.

(** A reader between [AcquireShared] and [ReleaseShared]. *)
Definition reader_inside : thread :=
  {| cur := Some OpAcquireShared; pc := []; todo := [OpReleaseShared] |}.

(** A thread that releases what it has not acquired, and a writer. *)
Definition misuse_progs : list (list op) :=
  [ [OpReleaseShared; OpAcquireShared]; [OpAcquireExclusive] ].

(** * Proofs *)

Import RWLock.

Arguments size_t : simpl never.

Lemma size_t_small z : 0 <= z < 2 ^ SIZE_BITS -> size_t z = z.
Proof. intros H. unfold size_t. apply Z.mod_small. exact H. Qed.

(** ** Sums over the pool *)

Section Sums.
Context {A : Type}.
Implicit Types (f g : A -> Z) (l : list A).

Lemma sumZ_insert f l i x y :
  l !! i = Some x -> sumZ f (<[i := y]> l) = sumZ f l - f x + f y.
Proof.
  revert i. induction l as [|a l IH]; intros [|i] H; simpl in *; try discriminate.
  - injection H as ->. lia.
  - rewrite (IH i H). lia.
Qed.

Lemma sumZ_nonneg f l : Forall (fun a => 0 <= f a) l -> 0 <= sumZ f l.
Proof. induction 1; simpl; lia. Qed.

Lemma sumZ_le f g l :
  Forall (fun a => f a <= g a) l -> sumZ f l <= sumZ g l.
Proof. induction 1; simpl; lia. Qed.

Lemma sumZ_eq f g l :
  Forall (fun a => f a = g a) l -> sumZ f l = sumZ g l.
Proof. induction 1; simpl; lia. Qed.

Lemma sumZ_zero f l : Forall (fun a => f a = 0) l -> sumZ f l = 0.
Proof. induction 1; simpl; lia. Qed.

Lemma sumZ_plus f g l :
  sumZ (fun a => f a + g a) l = sumZ f l + sumZ g l.
Proof. induction l; simpl; lia. Qed.

Lemma sumZ_lookup_le f l i x :
  Forall (fun a => 0 <= f a) l -> l !! i = Some x -> f x <= sumZ f l.
Proof.
  intros Hf. revert i. induction Hf as [|a l Ha Hl IH]; intros [|i] H;
    simpl in *; try discriminate.
  - injection H as ->. pose proof (sumZ_nonneg f l Hl). lia.
  - specialize (IH i H). lia.
Qed.

Lemma sumZ_lookup2_le f l i j x y :
  Forall (fun a => 0 <= f a) l -> i <> j ->
  l !! i = Some x -> l !! j = Some y -> f x + f y <= sumZ f l.
Proof.
  intros Hf. revert i j. induction Hf as [|a l Ha Hl IH]; intros [|i] [|j] Hij Hi Hj;
    simpl in *; try discriminate; try congruence.
  - injection Hi as ->. pose proof (sumZ_lookup_le f l j y Hl Hj). lia.
  - injection Hj as ->. pose proof (sumZ_lookup_le f l i x Hl Hi). lia.
  - assert (i <> j) as Hij' by congruence. specialize (IH i j Hij' Hi Hj). lia.
Qed.

Lemma sumZ_pos_lookup f l :
  0 < sumZ f l -> exists i x, l !! i = Some x /\ 0 < f x.
Proof.
  induction l as [|a l IH]; simpl; intros H; [lia|].
  destruct (Z_lt_le_dec 0 (f a)) as [Ha|Ha].
  - exists 0%nat, a. split; [reflexivity | exact Ha].
  - destruct IH as (i & x & Hi & Hx); [lia|].
    exists (S i), x. split; [exact Hi | exact Hx].
Qed.

Lemma sumZ_neg_lookup f l :
  sumZ f l < 0 -> exists i x, l !! i = Some x /\ f x < 0.
Proof.
  induction l as [|a l IH]; simpl; intros H; [lia|].
  destruct (Z_lt_le_dec (f a) 0) as [Ha|Ha].
  - exists 0%nat, a. split; [reflexivity | exact Ha].
  - destruct IH as (i & x & Hi & Hx); [lia|].
    exists (S i), x. split; [exact Hi | exact Hx].
Qed.

Lemma sumZ_le_length f l :
  Forall (fun a => f a <= 1) l -> sumZ f l <= Z.of_nat (length l).
Proof. induction 1; simpl length; simpl sumZ; lia. Qed.

End Sums.

(** ** One thread, one step *)

Lemma method_body o L : method o L = body (variant_of (m_mode L)) o.
Proof.
  unfold method, variant_of, AcquireShared, ReleaseShared,
    AcquireExclusive, ReleaseExclusive, switch.
  destruct o; destruct (m_mode L =? ReadersPriority); try reflexivity;
  destruct (m_mode L =? WritersPriority); reflexivity.
Qed.

Lemma fetch_body v L t0 :
  variant_of (m_mode L) = v ->
  fetch L t0 =
  match pc t0 with
  | [] =>
      match todo t0 with
      | [] => None
      | o :: r => Some {| cur := Some o; pc := body v o; todo := r |}
      end
  | _ :: _ => Some t0
  end.
Proof.
  intros <-. unfold fetch. destruct (pc t0); [|reflexivity].
  destruct (todo t0); [reflexivity|]. rewrite method_body. reflexivity.
Qed.

Ltac zbool :=
  repeat match goal with
  | |- context [?a <? ?b] => destruct (Z.ltb_spec a b)
  | |- context [?a =? ?b] => destruct (Z.eqb_spec a b)
  | H : context [?a <? ?b] |- _ => destruct (Z.ltb_spec a b)
  | H : context [?a =? ?b] |- _ => destruct (Z.eqb_spec a b)
  end.

Ltac solve_in := simpl; repeat (first [left; reflexivity | right]).

Ltac arith_view :=
  cbv -[Z.ltb Z.eqb Z.add Z.sub Z.opp size_t LONG_MAX LONG_MIN Z.le Z.lt
        not paired].

Ltac arith_view_all :=
  cbv -[Z.ltb Z.eqb Z.add Z.sub Z.opp size_t LONG_MAX LONG_MIN Z.le Z.lt
        not paired] in *.

(** Every position of every call of every protocol, one goal each. *)
Ltac positions v t Hwf Hin Htd :=
  destruct t as [[?o|] ?c ?td];
  unfold wf_thread, in_call, todo_paired in Hwf; simpl in Hwf;
  destruct Hwf as [Hin Htd];
  [ destruct v; match goal with o : op |- _ => destruct o end; simpl in Hin;
    repeat (destruct Hin as [<- | Hin]); try contradiction
  | match type of Hin with ?x = [] => subst x end ].

(** A thread between two calls: its next call, if it has one. *)
Ltac next_call Htd :=
  match goal with
  | td : list op |- _ =>
      destruct td as [|[] td]; simpl in Htd; try discriminate Htd
  end.

Lemma thread_step_local v L t0 L' t' :
  variant_of (m_mode L) = v -> wf_thread v t0 ->
  (forall g, 0 <= avail g L <= 1) ->
  (forall k, 0 <= count k L) -> (forall k, counted v k t0 <= count k L) ->
  thread_step L t0 = Some (L', t') ->
  local_step v L t0 L' t'.
Proof.
  intros Hv Hwf Hok Hc0 Hct Hstep.
  pose proof (Hok g_order) as Ho; pose proof (Hok g_resource) as Hr;
  pose proof (Hok g_rmutex) as Hrm; pose proof (Hok g_wmutex) as Hwm.
  pose proof (Hc0 c_readcount) as Hrc; pose proof (Hc0 c_writecount) as Hwc.
  pose proof (Hct c_readcount) as Hrt; pose proof (Hct c_writecount) as Hwt.
  clear Hok Hc0 Hct.
  positions v t0 Hwf Hin Htd.
  all: try (next_call Htd; try discriminate Hstep).
  all: unfold thread_step in Hstep; rewrite (fetch_body _ _ _ Hv) in Hstep;
       try destruct v; simpl in Hstep.
  all: destruct L as [md [ao] [ar] [arm] [awm] rc wc].
  all: arith_view_all.
  all: zbool; try discriminate Hstep; try discriminate Hv.
  all: injection Hstep as <- <-.
  all: split;
    [ split; [solve_in | first [ exact Htd | reflexivity ] ]
    | reflexivity
    | intros g; destruct g
    | intros g; destruct g
    | intros k; destruct k
    | intros g k Hg; destruct g; try discriminate Hg; injection Hg as <-
    | intros k; destruct k ].
  all: arith_view.
  all: rewrite ?size_t_small by (unfold SIZE_BITS; lia).
  all: zbool; lia.
Qed.

Lemma thread_static v L t0 :
  variant_of (m_mode L) = v -> wf_thread v t0 -> static v L t0.
Proof.
  intros Hv Hwf.
  positions v t0 Hwf Hin Htd.
  all: try next_call Htd.
  all: split;
    [ intros g; destruct g
    | intros k; destruct k
    | intros k; destruct k
    | intros g k Hg; destruct g; try discriminate Hg; injection Hg as <-
    | intros k s Hn Ht
    | intros k c Hn
    | intros k c Hn ].
  all: try (unfold next_stmt in Hn; rewrite (fetch_body _ _ _ Hv) in Hn;
            try destruct v; simpl in Hn;
            try discriminate Hn; injection Hn as <-).
  all: try (destruct k; try discriminate Ht).
  all: try discriminate Hn.
  all: arith_view; lia.
Qed.

(** ** The invariant *)

Lemma pool_static v L ts :
  variant_of (m_mode L) = v -> Forall (wf_thread v) ts ->
  Forall (static v L) ts.
Proof.
  intros Hv Hwf. eapply Forall_impl; [exact Hwf|].
  intros t0 Ht0. apply thread_static; assumption.
Qed.

Lemma guard_sum_nonneg v L ts k :
  Forall (static v L) ts -> 0 <= sumZ (hold (guard k)) ts.
Proof.
  intros Hst. apply sumZ_nonneg. eapply Forall_impl; [exact Hst|].
  intros t0 Ht0. apply (st_guard _ _ _ Ht0).
Qed.

Lemma group_guard k L : group (guard k) L = 0.
Proof. destruct k; reflexivity. Qed.

Lemma group_range g L : 0 <= group g L <= 1.
Proof. destruct g; simpl; zbool; lia. Qed.

Lemma group_of_count g k L :
  group_count g = Some k -> group g L = if 0 <? count k L then 1 else 0.
Proof. destruct g; simpl; intros H; try discriminate H; injection H as <-; reflexivity. Qed.

(** No semaphore of the lock ever counts more than one. *)
Lemma gate_upper v L ts :
  variant_of (m_mode L) = v ->
  Forall (wf_thread v) ts ->
  (forall g, 0 <= avail g L) ->
  (forall g, avail g L + sumZ (hold g) ts + group g L = 1) ->
  (forall g k i t0, group_count g = Some k -> ts !! i = Some t0 ->
     hold g t0 < 0 -> count k L = 1) ->
  forall g, avail g L <= 1.
Proof.
  intros Hv Hwf H0 Hg Hp g.
  pose proof (pool_static v L ts Hv Hwf) as Hst.
  destruct (group_count g) as [k|] eqn:Hk.
  - assert (0 <= sumZ (hold g) ts + sumZ (hold (guard k)) ts) as Hsum.
    { rewrite <- sumZ_plus. apply sumZ_nonneg.
      eapply Forall_impl; [exact Hst|]. intros t0 Ht0. simpl.
      pose proof (st_hold _ _ _ Ht0 g). pose proof (st_guard _ _ _ Ht0 k).
      destruct (Z_lt_le_dec (hold g t0) 0) as [Hneg|Hpos]; [|lia].
      destruct (st_pending _ _ _ Ht0 g k Hk Hneg). lia. }
    pose proof (Hg (guard k)) as Hgk. rewrite group_guard in Hgk.
    pose proof (H0 (guard k)). pose proof (Hg g) as Hgg.
    pose proof (group_range g L).
    destruct (Z_lt_le_dec (sumZ (hold g) ts) 0) as [Hneg|Hpos]; [|lia].
    destruct (sumZ_neg_lookup _ _ Hneg) as (i & t0 & Hi & Hlt).
    pose proof (Hp g k i t0 Hk Hi Hlt) as Hc.
    rewrite (group_of_count g k L Hk), Hc in Hgg. simpl in Hgg. lia.
  - assert (exists k, g = guard k) as [k ->].
    { destruct g; try discriminate Hk;
        [exists c_readcount | exists c_writecount]; reflexivity. }
    pose proof (Hg (guard k)) as Hgk. rewrite group_guard in Hgk.
    pose proof (guard_sum_nonneg v L ts k Hst). lia.
Qed.

Lemma Inv_init mode progs :
  forallb paired progs = true ->
  Inv (variant_of mode) (init mode progs).
Proof.
  intros Hp.
  assert (Forall (fun p => paired p = true) progs) as HF.
  { apply Forall_forall. intros p Hin. rewrite forallb_forall in Hp.
    apply Hp. apply list_elem_of_In. exact Hin. }
  clear Hp.
  assert (forall (f : thread -> Z),
            (forall p, f (spawn p) = 0) -> sumZ f (spawn <$> progs) = 0) as Hz.
  { intros f Hf. apply sumZ_zero. apply Forall_fmap.
    eapply Forall_impl; [exact HF|]. intros p _. apply Hf. }
  split; simpl.
  - reflexivity.
  - apply Forall_fmap. eapply Forall_impl; [exact HF|].
    intros p Hpp. split; [reflexivity | exact Hpp].
  - intros g; destruct g; cbv; split; discriminate.
  - intros g. rewrite Hz by reflexivity. destruct g; reflexivity.
  - intros k. rewrite Hz by reflexivity. destruct k; reflexivity.
  - intros g k i t0 _ Hi Hlt. exfalso.
    apply list_lookup_fmap_Some in Hi as (p & -> & _).
    unfold hold in Hlt. simpl in Hlt. lia.
Qed.

Lemma Inv_step v i st st' :
  Inv v st -> step_thread i st = Some st' -> Inv v st'.
Proof.
  intros [Hm Hwf Hr Hg Hc Hp] Hs. unfold step_thread in Hs.
  destruct (pool st !! i) as [t0|] eqn:Hi; simpl in Hs; [|discriminate Hs].
  destruct (thread_step (lk st) t0) as [[L' t']|] eqn:Ht; simpl in Hs;
    [|discriminate Hs].
  injection Hs as <-.
  pose proof (pool_static v _ _ Hm Hwf) as Hst.
  assert (forall k, Forall (fun a => 0 <= counted v k a) (pool st)) as Hcn.
  { intros k. eapply Forall_impl; [exact Hst|].
    intros a Ha. apply (st_counted _ _ _ Ha k). }
  assert (forall k, 0 <= count k (lk st)) as Hc0.
  { intros k. rewrite Hc. apply sumZ_nonneg, Hcn. }
  assert (forall k, counted v k t0 <= count k (lk st)) as Hct.
  { intros k. rewrite Hc. eapply sumZ_lookup_le; [apply Hcn | exact Hi]. }
  assert (wf_thread v t0) as Hwf0 by (eapply Forall_lookup_1; eassumption).
  destruct (thread_step_local v _ _ _ _ Hm Hwf0 Hr Hc0 Hct Ht)
    as [W M A G C P U].
  assert (forall g, avail g L' + sumZ (hold g) (<[i:=t']> (pool st))
                    + group g L' = 1) as Hg'.
  { intros g. rewrite (sumZ_insert _ _ _ _ _ Hi).
    specialize (G g). specialize (Hg g). lia. }
  assert (forall g k j u, group_count g = Some k ->
            <[i:=t']> (pool st) !! j = Some u -> hold g u < 0 ->
            count k L' = 1) as Hp'.
  { intros g k j u Hgk Hj Hu.
    destruct (decide (j = i)) as [->|Hne].
    - rewrite list_lookup_insert_eq in Hj
        by (eapply lookup_lt_Some; exact Hi).
      injection Hj as <-. exact (P g k Hgk Hu).
    - rewrite list_lookup_insert_ne in Hj by congruence.
      pose proof (Hp g k j u Hgk Hj Hu) as Hone.
      destruct (decide (count k L' = count k (lk st))) as [->|Hch];
        [exact Hone|].
      exfalso. pose proof (U k Hch) as Hh0.
      assert (static v (lk st) u) as Hsu
        by (eapply Forall_lookup_1; eassumption).
      destruct (st_pending _ _ _ Hsu g k Hgk Hu) as [Hhu _].
      assert (hold (guard k) u + hold (guard k) t0
              <= sumZ (hold (guard k)) (pool st)) as Hle.
      { eapply sumZ_lookup2_le; [|exact Hne|exact Hj|exact Hi].
        eapply Forall_impl; [exact Hst|]. intros a Ha.
        apply (st_guard _ _ _ Ha). }
      pose proof (Hg (guard k)) as Hgk'. rewrite group_guard in Hgk'.
      pose proof (Hr (guard k)). lia. }
  assert (Forall (wf_thread v) (<[i:=t']> (pool st))) as Hwf'
    by (apply Forall_insert; assumption).
  assert (variant_of (m_mode L') = v) as Hm' by (rewrite M; exact Hm).
  split; simpl.
  - exact Hm'.
  - exact Hwf'.
  - intros g. split; [apply A|]. revert g.
    eapply gate_upper; eassumption.
  - exact Hg'.
  - intros k. rewrite (sumZ_insert _ _ _ _ _ Hi).
    specialize (C k). specialize (Hc k). lia.
  - exact Hp'.
Qed.

Lemma Inv_run v sched : forall st st',
  Inv v st -> run sched st = Some st' -> Inv v st'.
Proof.
  induction sched as [|i sched IH]; intros st st' HI Hrun; simpl in Hrun.
  - injection Hrun as <-. exact HI.
  - destruct (step_thread i st) as [st1|] eqn:Hs; simpl in Hrun;
      [|discriminate Hrun].
    eapply IH; [|exact Hrun]. eapply Inv_step; eassumption.
Qed.

Lemma Inv_reach mode progs sched st :
  forallb paired progs = true ->
  run sched (init mode progs) = Some st ->
  Inv (variant_of mode) st.
Proof.
  intros Hp Hrun. eapply Inv_run; [|exact Hrun]. apply Inv_init, Hp.
Qed.

(** ** Who holds the resource *)

Lemma returned_inv o t0 :
  returned o t0 = true -> cur t0 = Some o /\ pc t0 = [].
Proof.
  unfold returned. destruct (cur t0) as [o'|]; [|discriminate].
  destruct (pc t0); [|discriminate].
  destruct o, o'; intros H; try discriminate H; split; reflexivity.
Qed.

Lemma in_exclusive_hold t0 :
  in_exclusive t0 = true -> hpos g_resource t0 = 1.
Proof.
  intros H. apply returned_inv in H as [Hc Hp].
  unfold hpos, hold. rewrite Hc, Hp. reflexivity.
Qed.

Lemma in_shared_counted v t0 :
  in_shared t0 = true ->
  counted v c_readcount t0 = 1 /\ pend g_resource t0 = 0.
Proof.
  intros H. apply returned_inv in H as [Hc Hp].
  unfold counted, pend, hold. rewrite Hc, Hp. split; reflexivity.
Qed.

Lemma hpos_nonneg g ts : Forall (fun a => 0 <= hpos g a) ts.
Proof. apply Forall_forall. intros a _. unfold hpos. lia. Qed.

(** At most one reader is about to take the resource, and it is then the
    only reader counted. *)
Lemma Inv_pending_sum v st :
  Inv v st ->
  sumZ (pend g_resource) (pool st) = 0
  \/ (sumZ (pend g_resource) (pool st) = 1 /\ m_readcount (lk st) = 1).
Proof.
  intros [Hm Hwf Hr Hg Hc Hp].
  pose proof (pool_static v _ _ Hm Hwf) as Hst.
  assert (0 <= sumZ (pend g_resource) (pool st)) as H0.
  { apply sumZ_nonneg, Forall_forall. intros a _. unfold pend. zbool; lia. }
  assert (sumZ (pend g_resource) (pool st)
          <= sumZ (hold g_rmutex) (pool st)) as H1.
  { apply sumZ_le. eapply Forall_impl; [exact Hst|]. intros a Ha.
    pose proof (st_guard _ _ _ Ha c_readcount) as Hge. simpl in Hge.
    unfold pend. destruct (Z.ltb_spec (hold g_resource a) 0) as [Hlt|]; [|lia].
    destruct (st_pending _ _ _ Ha g_resource c_readcount eq_refl Hlt) as [Hh _].
    simpl in Hh. lia. }
  pose proof (Hg g_rmutex) as Hrm. simpl in Hrm.
  pose proof (Hr g_rmutex).
  destruct (Z_lt_le_dec 0 (sumZ (pend g_resource) (pool st))) as [Hpos|]; [|lia].
  right. split; [lia|].
  destruct (sumZ_pos_lookup _ _ Hpos) as (i & a & Hi & Ha).
  apply (Hp g_resource c_readcount i a eq_refl Hi).
  unfold pend in Ha. destruct (Z.ltb_spec (hold g_resource a) 0); lia.
Qed.

Lemma Inv_hpos v st :
  Inv v st ->
  avail g_resource (lk st) + sumZ (hpos g_resource) (pool st)
  - sumZ (pend g_resource) (pool st) + group g_resource (lk st) = 1.
Proof.
  intros HI. pose proof HI as [Hm Hwf Hr Hg Hc Hp].
  pose proof (pool_static v _ _ Hm Hwf) as Hst.
  assert (sumZ (hpos g_resource) (pool st)
          = sumZ (hold g_resource) (pool st)
            + sumZ (pend g_resource) (pool st)) as ->.
  { rewrite <- sumZ_plus. apply sumZ_eq.
    eapply Forall_impl; [exact Hst|]. intros a Ha. simpl.
    pose proof (st_hold _ _ _ Ha g_resource).
    unfold hpos, pend. destruct (Z.ltb_spec (hold g_resource a) 0); lia. }
  specialize (Hg g_resource). lia.
Qed.

Lemma Inv_writers v st :
  Inv v st ->
  avail g_resource (lk st) + sumZ (hpos g_resource) (pool st) <= 1.
Proof.
  intros HI. pose proof (Inv_hpos v st HI) as Hh.
  pose proof (group_range g_resource (lk st)).
  destruct (Inv_pending_sum v st HI) as [H0|[H1 Hrc]]; [lia|].
  simpl in Hh. rewrite Hrc in Hh. simpl in Hh. lia.
Qed.

Lemma Inv_readers v st j tj :
  Inv v st -> pool st !! j = Some tj -> in_shared tj = true ->
  sumZ (pend g_resource) (pool st) = 0 /\ 0 < m_readcount (lk st).
Proof.
  intros HI Hj Hs. pose proof HI as [Hm Hwf Hr Hg Hc Hp].
  pose proof (pool_static v _ _ Hm Hwf) as Hst.
  set (full := fun a => counted v c_readcount a - pend g_resource a).
  assert (Forall (fun a => 0 <= full a) (pool st)) as Hfull.
  { eapply Forall_impl; [exact Hst|]. intros a Ha. unfold full.
    pose proof (st_counted _ _ _ Ha c_readcount).
    unfold pend. destruct (Z.ltb_spec (hold g_resource a) 0) as [Hlt|]; [|lia].
    destruct (st_pending _ _ _ Ha g_resource c_readcount eq_refl Hlt). lia. }
  assert (m_readcount (lk st)
          = sumZ full (pool st) + sumZ (pend g_resource) (pool st)) as Hsum.
  { rewrite <- sumZ_plus. rewrite (Hc c_readcount : m_readcount _ = _).
    apply sumZ_eq, Forall_forall. intros a _. unfold full. lia. }
  pose proof (sumZ_lookup_le full _ _ _ Hfull Hj) as Hle.
  destruct (in_shared_counted v tj Hs) as [H1 H2].
  unfold full in Hle at 1. rewrite H1, H2 in Hle.
  destruct (Inv_pending_sum v st HI) as [H0|[Hone Hrc]]; lia.
Qed.

Lemma Inv_exclusion v st i j ti tj :
  Inv v st ->
  pool st !! i = Some ti -> pool st !! j = Some tj -> i <> j ->
  in_exclusive ti = true ->
  in_exclusive tj = false /\ in_shared tj = false.
Proof.
  intros HI Hi Hj Hne Hex.
  pose proof (Inv_writers v st HI) as Hw.
  pose proof (inv_range _ _ HI g_resource) as Hr.
  pose proof (in_exclusive_hold ti Hex) as Hti.
  split.
  - destruct (in_exclusive tj) eqn:Hex'; [|reflexivity]. exfalso.
    pose proof (in_exclusive_hold tj Hex') as Htj.
    pose proof (sumZ_lookup2_le (hpos g_resource) _ _ _ _ _
                  (hpos_nonneg _ _) Hne Hi Hj). lia.
  - destruct (in_shared tj) eqn:Hsh; [|reflexivity]. exfalso.
    destruct (Inv_readers v st j tj HI Hj Hsh) as [Hp0 Hrc].
    pose proof (Inv_hpos v st HI) as Hh. simpl in Hh.
    destruct (Z.ltb_spec 0 (m_readcount (lk st))); [|lia].
    pose proof (sumZ_lookup_le (hpos g_resource) _ _ _ (hpos_nonneg _ _) Hi).
    lia.
Qed.

Lemma Inv_resource_taken v st i ti :
  Inv v st -> pool st !! i = Some ti ->
  in_exclusive ti = true \/ in_shared ti = true ->
  avail g_resource (lk st) = 0.
Proof.
  intros HI Hi Hin.
  pose proof (inv_range _ _ HI g_resource) as Hr.
  pose proof (sumZ_nonneg (hpos g_resource) _ (hpos_nonneg _ (pool st))) as H0.
  destruct Hin as [Hex|Hsh].
  - pose proof (Inv_writers v st HI) as Hw.
    pose proof (in_exclusive_hold ti Hex) as Hti.
    pose proof (sumZ_lookup_le (hpos g_resource) _ _ _ (hpos_nonneg _ _) Hi).
    lia.
  - destruct (Inv_readers v st i ti HI Hi Hsh) as [Hp0 Hrc].
    pose proof (Inv_hpos v st HI) as Hh. simpl in Hh.
    destruct (Z.ltb_spec 0 (m_readcount (lk st))); lia.
Qed.

(** ** The mode *)

Lemma do_call_mode c L L' : do_call c L = Done L' -> m_mode L' = m_mode L.
Proof.
  destruct c as [g|g]; unfold do_call; simpl.
  - destruct (Semaphore.Acquire (sem g L)); simpl; intros H;
      try discriminate H. injection H as <-. destruct g; reflexivity.
  - intros H. injection H as <-. destruct g; reflexivity.
Qed.

Lemma pre_inc_mode k L L' n :
  pre_inc k L = Done (L', n) -> m_mode L' = m_mode L.
Proof.
  unfold pre_inc. destruct (count k L <? LONG_MAX); intros H;
    try discriminate H. injection H as <- _. destruct k; reflexivity.
Qed.

Lemma pre_dec_mode k L L' n :
  pre_dec k L = Done (L', n) -> m_mode L' = m_mode L.
Proof.
  unfold pre_dec. destruct (LONG_MIN <? count k L); intros H;
    try discriminate H. injection H as <- _. destruct k; reflexivity.
Qed.

Lemma step_stmt_mode s L L' c e :
  step_stmt s L = Done (L', c, e) -> m_mode L' = m_mode L.
Proof.
  destruct s as [x|k x|k x]; unfold step_stmt; simpl.
  - destruct (do_call x L) as [L1| |] eqn:E; simpl; intros H;
      try discriminate H. injection H as <- _ _. eapply do_call_mode, E.
  - destruct (pre_inc k L) as [[L1 n]| |] eqn:E; simpl; intros H;
      try discriminate H. injection H as <- _ _. eapply pre_inc_mode, E.
  - destruct (pre_dec k L) as [[L1 n]| |] eqn:E; simpl; intros H;
      try discriminate H. injection H as <- _ _. eapply pre_dec_mode, E.
Qed.

Lemma exec_stmt_mode s L L' tr :
  exec_stmt s L = Done (L', tr) -> m_mode L' = m_mode L.
Proof.
  destruct s as [x|k x|k x]; unfold exec_stmt; simpl.
  - destruct (do_call x L) as [L1| |] eqn:E; simpl; intros H;
      try discriminate H. injection H as <- _. eapply do_call_mode, E.
  - destruct (pre_inc k L) as [[L1 n]| |] eqn:E; simpl; [|discriminate..].
    apply pre_inc_mode in E. destruct (n =? 1).
    + destruct (do_call x L1) as [L2| |] eqn:E2; simpl; intros H;
        try discriminate H. injection H as <- _.
      apply do_call_mode in E2. congruence.
    + intros H. injection H as <- _. exact E.
  - destruct (pre_dec k L) as [[L1 n]| |] eqn:E; simpl; [|discriminate..].
    apply pre_dec_mode in E. destruct (n =? 0).
    + destruct (do_call x L1) as [L2| |] eqn:E2; simpl; intros H;
        try discriminate H. injection H as <- _.
      apply do_call_mode in E2. congruence.
    + intros H. injection H as <- _. exact E.
Qed.

Lemma exec_mode c : forall L L' tr,
  exec c L = Done (L', tr) -> m_mode L' = m_mode L.
Proof.
  induction c as [|s c IH]; intros L L' tr; simpl.
  - intros H. injection H as <- _. reflexivity.
  - destruct (exec_stmt s L) as [[L1 tr1]| |] eqn:E1; simpl; [|discriminate..].
    destruct (exec c L1) as [[L2 tr2]| |] eqn:E2; simpl; intros H;
      try discriminate H. injection H as <- _.
    apply exec_stmt_mode in E1. apply IH in E2. congruence.
Qed.

Lemma thread_step_mode L t0 L' t' :
  thread_step L t0 = Some (L', t') -> m_mode L' = m_mode L.
Proof.
  unfold thread_step. destruct (fetch L t0) as [t1|]; simpl; [|discriminate].
  destruct (pc t1) as [|s c]; [discriminate|].
  destruct (step_stmt s L) as [[[L1 c1] e]| |] eqn:E; intros H;
    try discriminate H. injection H as <- _. eapply step_stmt_mode, E.
Qed.

Lemma thread_step_in_call v L t0 L' t' :
  variant_of (m_mode L) = v -> in_call v t0 ->
  thread_step L t0 = Some (L', t') -> in_call v t'.
Proof.
  intros Hv Hin Hstep.
  destruct t0 as [[o|] c td]; unfold in_call in Hin; simpl in Hin;
    [ destruct v, o; simpl in Hin;
      repeat (destruct Hin as [<- | Hin]); try contradiction
    | subst c ].
  all: try (destruct td as [|[] td]; try discriminate Hstep).
  all: unfold thread_step in Hstep; rewrite (fetch_body _ _ _ Hv) in Hstep;
       try destruct v; simpl in Hstep.
  all: destruct L as [md [ao] [ar] [arm] [awm] rc wc].
  all: arith_view_all.
  all: zbool; try discriminate Hstep; try discriminate Hv.
  all: injection Hstep as <- <-.
  all: solve_in.
Qed.

Lemma run_mode sched : forall v st st',
  Forall (in_call v) (pool st) -> variant_of (m_mode (lk st)) = v ->
  run sched st = Some st' ->
  m_mode (lk st') = m_mode (lk st) /\ Forall (in_call v) (pool st').
Proof.
  induction sched as [|i sched IH]; intros v st st' Hin Hv Hrun;
    simpl in Hrun.
  - injection Hrun as <-. split; [reflexivity | exact Hin].
  - unfold step_thread in Hrun.
    destruct (pool st !! i) as [t0|] eqn:Hi; simpl in Hrun;
      [|discriminate Hrun].
    destruct (thread_step (lk st) t0) as [[L' t']|] eqn:Ht; simpl in Hrun;
      [|discriminate Hrun].
    pose proof (thread_step_mode _ _ _ _ Ht) as HM.
    assert (in_call v t') as Hin'.
    { eapply thread_step_in_call; [exact Hv| |exact Ht].
      eapply Forall_lookup_1; eassumption. }
    destruct (IH v _ st' (Forall_insert _ _ i t' Hin Hin'
                            : Forall (in_call v) (pool (mkState L' _)))
                (eq_trans (f_equal variant_of HM) Hv) Hrun) as [H1 H2].
    split; [|exact H2]. simpl in H1. congruence.
Qed.

Lemma init_in_call v mode progs : Forall (in_call v) (pool (init mode progs)).
Proof.
  simpl. apply Forall_fmap, Forall_forall. intros p _. reflexivity.
Qed.

Lemma reach_mode mode progs sched st :
  run sched (init mode progs) = Some st ->
  m_mode (lk st) = mode /\ Forall (in_call (variant_of mode)) (pool st).
Proof.
  intros Hrun.
  exact (run_mode sched (variant_of mode) _ _
           (init_in_call _ mode progs) eq_refl Hrun).
Qed.

(** ** A caller that is alone

    [exec] is [step_stmt] iterated: a call run from entry to return is the
    run of one thread while the others stand still, one step for each
    action of its trace. *)

Lemma exec_unfold s c L :
  exec (s :: c) L =
  '(L1, pushed, e) ← step_stmt s L;
  '(L2, tr) ← exec (pushed ++ c) L1;
  mret (L2, e :: tr).
Proof.
  destruct s as [x|k x|k x]; simpl.
  - destruct (do_call x L) as [L1| |]; simpl; try reflexivity.
  - destruct (pre_inc k L) as [[L1 n]| |]; simpl; try reflexivity.
    destruct (n =? 1); simpl; [|reflexivity].
    destruct (do_call x L1) as [L2| |]; simpl; try reflexivity.
    destruct (exec c L2) as [[L3 tr]| |]; reflexivity.
  - destruct (pre_dec k L) as [[L1 n]| |]; simpl; try reflexivity.
    destruct (n =? 0); simpl; [|reflexivity].
    destruct (do_call x L1) as [L2| |]; simpl; try reflexivity.
    destruct (exec c L2) as [[L3 tr]| |]; reflexivity.
Qed.

Lemma method_nonempty o L : method o L <> [].
Proof.
  rewrite method_body. destruct (variant_of (m_mode L)), o; discriminate.
Qed.

Lemma exec_at tr : forall c L L' o td ts i,
  ts !! i = Some {| cur := o; pc := c; todo := td |} ->
  exec c L = Done (L', tr) ->
  run (replicate (length tr) i) {| lk := L; pool := ts |}
  = Some {| lk := L'; pool := <[i := {| cur := o; pc := []; todo := td |}]> ts |}.
Proof.
  induction tr as [|e tr IH]; intros c L L' o td ts i Hi Hex.
  - destruct c as [|s c].
    + simpl in Hex. injection Hex as <-. simpl.
      rewrite list_insert_id by exact Hi. reflexivity.
    + rewrite exec_unfold in Hex.
      destruct (step_stmt s L) as [[[L1 pushed] e]| |]; simpl in Hex;
        try discriminate Hex.
      destruct (exec (pushed ++ c) L1) as [[L2 tr]| |]; discriminate Hex.
  - destruct c as [|s c]; [discriminate Hex|].
    rewrite exec_unfold in Hex.
    destruct (step_stmt s L) as [[[L1 pushed] e']| |] eqn:Hs; simpl in Hex;
      try discriminate Hex.
    destruct (exec (pushed ++ c) L1) as [[L2 tr']| |] eqn:Hex'; simpl in Hex;
      try discriminate Hex.
    injection Hex as <- <- <-.
    simpl. unfold step_thread. simpl. rewrite Hi. simpl.
    unfold thread_step, fetch. simpl. rewrite Hs. simpl.
    erewrite IH; [|apply list_lookup_insert_eq; eapply lookup_lt_Some, Hi|exact Hex'].
    rewrite list_insert_insert_eq. reflexivity.
Qed.

Lemma call_at o L L' tr cu td ts i :
  ts !! i = Some {| cur := cu; pc := []; todo := o :: td |} ->
  call o L = Done (L', tr) ->
  run (replicate (length tr) i) {| lk := L; pool := ts |}
  = Some {| lk := L';
            pool := <[i := {| cur := Some o; pc := []; todo := td |}]> ts |}.
Proof.
  intros Hi Hc.
  assert (<[i := {| cur := Some o; pc := method o L; todo := td |}]> ts !! i
          = Some {| cur := Some o; pc := method o L; todo := td |}) as Hi'
    by (apply list_lookup_insert_eq; eapply lookup_lt_Some, Hi).
  pose proof (exec_at tr _ _ _ _ _ _ _ Hi' Hc) as Hrun.
  rewrite list_insert_insert_eq in Hrun.
  pose proof (method_nonempty o L) as Hne. unfold call in Hc.
  destruct tr as [|e tr].
  - destruct (method o L) as [|s c]; [contradiction|].
    rewrite exec_unfold in Hc.
    destruct (step_stmt s L) as [[[L1 pushed] e]| |]; simpl in Hc;
      try discriminate Hc.
    destruct (exec (pushed ++ c) L1) as [[L2 tr]| |]; discriminate Hc.
  - simpl in Hrun |- *.
    assert (step_thread i {| lk := L; pool := ts |}
            = step_thread i {| lk := L;
                 pool := <[i := {| cur := Some o; pc := method o L; todo := td |}]> ts |})
      as ->; [|exact Hrun].
    unfold step_thread. simpl. rewrite Hi, Hi'. simpl.
    unfold thread_step, fetch. simpl.
    destruct (method o L) as [|s c]; [contradiction|]. simpl.
    destruct (step_stmt s L) as [[[L1 pushed] e']| |]; simpl; try reflexivity.
    rewrite list_insert_insert_eq. reflexivity.
Qed.

Lemma run_app s1 : forall s2 st,
  run (s1 ++ s2) st = st' ← run s1 st; run s2 st'.
Proof.
  induction s1 as [|i s1 IH]; intros s2 st; simpl; [reflexivity|].
  destruct (step_thread i st) as [st1|]; simpl; [apply IH | reflexivity].
Qed.

Lemma idle_session mode :
  (exists L1 tr1 tr2,
     call OpAcquireShared (construct (Some mode)) = Done (L1, tr1)
     /\ call OpReleaseShared L1 = Done (construct (Some mode), tr2))
  /\ (exists L1 tr1 tr2,
     call OpAcquireExclusive (construct (Some mode)) = Done (L1, tr1)
     /\ call OpReleaseExclusive L1 = Done (construct (Some mode), tr2)).
Proof.
  assert (forall o L, m_mode L = mode ->
            call o L = exec (body (variant_of mode) o) L) as Hb.
  { intros o L <-. unfold call. rewrite method_body. reflexivity. }
  destruct (variant_of mode).
  all: split; eexists _, _, _.
  all: (split; [rewrite Hb by reflexivity; reflexivity|]).
  all: rewrite Hb by reflexivity; reflexivity.
Qed.

Lemma thread_completes mode (n : nat) : forall p cu ts i,
  (length p <= n)%nat -> paired p = true ->
  ts !! i = Some {| cur := cu; pc := []; todo := p |} ->
  exists sched cu',
    run sched {| lk := construct (Some mode); pool := ts |}
    = Some {| lk := construct (Some mode);
              pool := <[i := {| cur := cu'; pc := []; todo := [] |}]> ts |}.
Proof.
  induction n as [|n IH]; intros p cu ts i Hlen Hp Hi.
  - destruct p; [|simpl in Hlen; lia].
    exists [], cu. simpl. rewrite list_insert_id by exact Hi. reflexivity.
  - destruct p as [|o1 [|o2 p]].
    + exists [], cu. simpl. rewrite list_insert_id by exact Hi. reflexivity.
    + destruct o1; discriminate Hp.
    + assert (exists L1 tr1 tr2,
                call o1 (construct (Some mode)) = Done (L1, tr1)
                /\ call o2 L1 = Done (construct (Some mode), tr2))
        as (L1 & tr1 & tr2 & H1 & H2).
      { destruct (idle_session mode) as [HS HE].
        destruct o1, o2; try discriminate Hp; assumption. }
      assert (paired p = true) as Hp'
        by (destruct o1, o2; try discriminate Hp; exact Hp).
      pose proof (call_at _ _ _ _ _ _ _ _ Hi H1) as R1.
      assert (<[i := {| cur := Some o1; pc := []; todo := o2 :: p |}]> ts !! i
              = Some {| cur := Some o1; pc := []; todo := o2 :: p |}) as Hi1
        by (apply list_lookup_insert_eq; eapply lookup_lt_Some, Hi).
      pose proof (call_at _ _ _ _ _ _ _ _ Hi1 H2) as R2.
      rewrite list_insert_insert_eq in R2.
      assert (<[i := {| cur := Some o2; pc := []; todo := p |}]> ts !! i
              = Some {| cur := Some o2; pc := []; todo := p |}) as Hi2
        by (apply list_lookup_insert_eq; eapply lookup_lt_Some, Hi).
      destruct (IH p (Some o2) _ i ltac:(simpl in Hlen; lia) Hp' Hi2)
        as (sched & cu' & R3).
      rewrite list_insert_insert_eq in R3.
      exists (replicate (length tr1) i ++ replicate (length tr2) i ++ sched), cu'.
      rewrite run_app, R1. simpl. rewrite run_app, R2. simpl. exact R3.
Qed.

Lemma serial_completes_gen mode : forall rest done_,
  forallb paired rest = true ->
  forallb finished done_ = true ->
  exists sched final,
    run sched {| lk := construct (Some mode);
                 pool := done_ ++ (spawn <$> rest) |}
    = Some {| lk := construct (Some mode); pool := final |}
    /\ forallb finished final = true.
Proof.
  induction rest as [|p rest IH]; intros done_ Hp Hd.
  - exists [], done_. simpl. rewrite app_nil_r. split; [reflexivity | exact Hd].
  - simpl in Hp. apply andb_true_iff in Hp as [Hp Hrest].
    assert ((done_ ++ (spawn <$> p :: rest)) !! length done_
            = Some {| cur := None; pc := []; todo := p |}) as Hi.
    { rewrite lookup_app_r by lia. rewrite Nat.sub_diag. reflexivity. }
    destruct (thread_completes mode (length p) p None _ _ (le_n _) Hp Hi)
      as (s1 & cu' & R1).
    destruct (IH (done_ ++ [ {| cur := cu'; pc := []; todo := [] |} ]) Hrest)
      as (s2 & final & R2 & Hf).
    { rewrite forallb_app, Hd. reflexivity. }
    exists (s1 ++ s2), final. split; [|exact Hf].
    rewrite run_app, R1. simpl. rewrite <- R2. f_equal. f_equal.
    rewrite <- app_assoc. simpl.
    replace (length done_) with (length done_ + 0)%nat by lia.
    rewrite insert_app_r. reflexivity.
Qed.

(** Threads with paired programs can always be run to the end, one after
    the other: the lock does not deadlock a caller that is alone. *)
Lemma serial_run_completes mode progs :
  forallb paired progs = true ->
  exists sched st,
    run sched (init mode progs) = Some st
    /\ forallb finished (pool st) = true.
Proof.
  intros Hp.
  destruct (serial_completes_gen mode progs [] Hp eq_refl)
    as (sched & final & Hrun & Hf).
  exists sched, {| lk := construct (Some mode); pool := final |}.
  split; [exact Hrun | exact Hf].
Qed.

(** ** The counters are updated by one thread at a time, within range *)

Lemma step_thread_length i st st' :
  step_thread i st = Some st' -> length (pool st') = length (pool st).
Proof.
  unfold step_thread. destruct (pool st !! i) as [t0|]; simpl; [|discriminate].
  destruct (thread_step (lk st) t0) as [[L' t']|]; simpl; [|discriminate].
  intros H. injection H as <-. simpl. apply length_insert.
Qed.

Lemma run_length sched : forall st st',
  run sched st = Some st' -> length (pool st') = length (pool st).
Proof.
  induction sched as [|i sched IH]; intros st st' Hrun; simpl in Hrun.
  - injection Hrun as <-. reflexivity.
  - destruct (step_thread i st) as [st1|] eqn:Hs; simpl in Hrun;
      [|discriminate Hrun].
    rewrite (IH _ _ Hrun). eapply step_thread_length, Hs.
Qed.

(** The increments and decrements of [m_readcount] and of [m_writecount]
    are not atomic in the source; they need not be, for no two threads are
    ever about to update the same counter. *)
Lemma race_free mode progs sched st i j ti tj k si sj :
  forallb paired progs = true ->
  run sched (init mode progs) = Some st ->
  pool st !! i = Some ti -> pool st !! j = Some tj -> i <> j ->
  next_stmt (lk st) ti = Some si -> touches k si = true ->
  next_stmt (lk st) tj = Some sj -> touches k sj = true ->
  False.
Proof.
  intros Hp Hrun Hi Hj Hne Hsi Hti Hsj Htj.
  pose proof (Inv_reach mode progs sched st Hp Hrun) as [Hm Hwf Hr Hg Hc _].
  pose proof (pool_static _ _ _ Hm Hwf) as Hst.
  assert (static (variant_of mode) (lk st) ti) as Si
    by (eapply Forall_lookup_1; eassumption).
  assert (static (variant_of mode) (lk st) tj) as Sj
    by (eapply Forall_lookup_1; eassumption).
  pose proof (st_touch _ _ _ Si k si Hsi Hti) as H1.
  pose proof (st_touch _ _ _ Sj k sj Hsj Htj) as H2.
  assert (hold (guard k) ti + hold (guard k) tj
          <= sumZ (hold (guard k)) (pool st)) as Hle.
  { eapply sumZ_lookup2_le; [|exact Hne|exact Hi|exact Hj].
    eapply Forall_impl; [exact Hst|]. intros a Ha. apply (st_guard _ _ _ Ha). }
  pose proof (Hg (guard k)) as Hgk. rewrite group_guard in Hgk.
  pose proof (Hr (guard k)). lia.
Qed.

Lemma sumZ_lookup_slack {A : Type} (f : A -> Z) (l : list A) i x :
  Forall (fun a => f a <= 1) l -> l !! i = Some x ->
  sumZ f l <= Z.of_nat (length l) - 1 + f x.
Proof.
  intros Hf. revert i. induction Hf as [|a l Ha Hl IH]; intros [|i] H;
    simpl length; simpl sumZ; simpl in H; try discriminate H.
  - injection H as ->. pose proof (sumZ_le_length f l Hl). lia.
  - specialize (IH i H). lia.
Qed.

(** With no more threads than [LONG_MAX], no counter update overflows: the
    steps left out of the model as undefined are never the next step of a
    thread. *)
Lemma counters_defined mode progs sched st i ti t1 s c :
  forallb paired progs = true ->
  run sched (init mode progs) = Some st ->
  Z.of_nat (length progs) <= LONG_MAX ->
  pool st !! i = Some ti -> fetch (lk st) ti = Some t1 -> pc t1 = s :: c ->
  step_stmt s (lk st) <> Undefined.
Proof.
  intros Hp Hrun Hlen Hi Hf Hpc.
  pose proof (Inv_reach mode progs sched st Hp Hrun) as [Hm Hwf Hr Hg Hc _].
  pose proof (pool_static _ _ _ Hm Hwf) as Hst.
  assert (static (variant_of mode) (lk st) ti) as Si
    by (eapply Forall_lookup_1; eassumption).
  assert (length (pool st) = length progs) as Hl.
  { rewrite (run_length _ _ _ Hrun). simpl. apply length_fmap. }
  assert (next_stmt (lk st) ti = Some s) as Hn.
  { unfold next_stmt. rewrite Hf. simpl. rewrite Hpc. reflexivity. }
  destruct s as [x|k x|k x]; unfold step_stmt.
  - destruct x as [g|g]; unfold do_call, Semaphore.Acquire; simpl;
      [destruct (0 <? _)|]; discriminate.
  - pose proof (st_inc _ _ _ Si k x Hn) as H0.
    assert (Forall (fun a => counted (variant_of mode) k a <= 1) (pool st))
      as Hle.
    { eapply Forall_impl; [exact Hst|]. intros a Ha.
      apply (st_counted _ _ _ Ha k). }
    pose proof (sumZ_lookup_slack _ _ _ _ Hle Hi) as Hs.
    rewrite <- Hc, H0, Hl in Hs. unfold pre_inc.
    destruct (Z.ltb_spec (count k (lk st)) LONG_MAX); [discriminate | lia].
  - pose proof (st_dec _ _ _ Si k x Hn) as H1.
    assert (Forall (fun a => 0 <= counted (variant_of mode) k a) (pool st))
      as Hge.
    { eapply Forall_impl; [exact Hst|]. intros a Ha.
      apply (st_counted _ _ _ Ha k). }
    pose proof (sumZ_lookup_le _ _ _ _ Hge Hi) as Hs.
    rewrite <- Hc, H1 in Hs. unfold pre_dec.
    destruct (Z.ltb_spec LONG_MIN (count k (lk st))); [discriminate|].
    unfold LONG_MIN in *. lia.
Qed.

(** ** Mutual exclusion *)

(** C1. On a lock of any mode, used by threads whose calls are paired,
    and in every interleaving: while a thread is between [AcquireExclusive]
    and its [ReleaseExclusive], no other thread is between an acquisition
    and its release, shared or exclusive; and while any thread is between an
    acquisition and its release, the resource semaphore is taken. *)
Theorem mutual_exclusion (mode : RWLockMode) (progs : list (list op))
    (sched : list nat) (st : state) :
  forallb paired progs = true ->
  run sched (init mode progs) = Some st ->
  (forall i j ti tj,
     pool st !! i = Some ti -> pool st !! j = Some tj -> i <> j ->
     in_exclusive ti = true ->
     in_exclusive tj = false /\ in_shared tj = false)
  /\ (forall i ti,
        pool st !! i = Some ti ->
        in_exclusive ti = true \/ in_shared ti = true ->
        avail g_resource (lk st) = 0).
Proof.
  intros Hp Hrun.
  pose proof (Inv_reach mode progs sched st Hp Hrun) as HI.
  split.
  - intros i j ti tj. exact (Inv_exclusion _ st i j ti tj HI).
  - intros i ti. exact (Inv_resource_taken _ st i ti HI).
Qed.

Lemma mutual_exclusion_witness :
  forallb paired demo_progs = true
  /\ run demo_writing (init FairOrder demo_progs) = Some demo_state_writing
  /\ (forall i j ti tj,
        pool demo_state_writing !! i = Some ti ->
        pool demo_state_writing !! j = Some tj -> i <> j ->
        in_exclusive ti = true ->
        in_exclusive tj = false /\ in_shared tj = false)
  /\ (forall i ti,
        pool demo_state_writing !! i = Some ti ->
        in_exclusive ti = true \/ in_shared ti = true ->
        avail g_resource (lk demo_state_writing) = 0).
Proof.
  split; [reflexivity|]. split; [vm_compute; reflexivity|].
  apply (mutual_exclusion FairOrder demo_progs demo_writing demo_state_writing);
    vm_compute; reflexivity.
Defined.

(** ** Balanced accounting *)

Lemma finished_clear v t0 :
  wf_thread v t0 -> finished t0 = true ->
  (forall g, hold g t0 = 0) /\ (forall k, counted v k t0 = 0).
Proof.
  intros [Hin Htd] Hf. unfold finished in Hf.
  destruct t0 as [[o|] c td]; simpl in *.
  - destruct c; [|discriminate Hf]. destruct td; [|discriminate Hf].
    unfold todo_paired in Htd. simpl in Htd.
    destruct o; try discriminate Htd;
      (split; [intros g; destruct g | intros k; destruct k; destruct v]);
      reflexivity.
  - split; reflexivity.
Qed.

(** C7. For every mode and every interleaving of threads whose calls are
    paired: once every thread has made all its calls and none is inside a
    call, the lock is the lock that was constructed, with [m_readcount] and
    [m_writecount] zero and the four semaphores available. *)
Theorem balanced_accounting (mode : RWLockMode) (progs : list (list op))
    (sched : list nat) (st : state) :
  forallb paired progs = true ->
  run sched (init mode progs) = Some st ->
  forallb finished (pool st) = true ->
  lk st = construct (Some mode).
Proof.
  intros Hp Hrun Hfin.
  pose proof (Inv_reach mode progs sched st Hp Hrun) as [Hm Hwf Hr Hg Hc _].
  destruct (reach_mode mode progs sched st Hrun) as [Hmode _].
  assert (Forall (fun a => (forall g, hold g a = 0)
                           /\ (forall k, counted (variant_of mode) k a = 0))
            (pool st)) as Hclear.
  { apply Forall_forall. intros a Ha.
    apply (finished_clear (variant_of mode)).
    - rewrite Forall_forall in Hwf. apply Hwf, Ha.
    - rewrite forallb_forall in Hfin. apply Hfin, list_elem_of_In, Ha. }
  assert (forall g, sumZ (hold g) (pool st) = 0) as Hh.
  { intros g. apply sumZ_zero. eapply Forall_impl; [exact Hclear|].
    intros a [Ha _]. apply Ha. }
  assert (forall k, count k (lk st) = 0) as Hk.
  { intros k. rewrite Hc. apply sumZ_zero.
    eapply Forall_impl; [exact Hclear|]. intros a [_ Ha]. apply Ha. }
  pose proof (Hg g_order) as Ho. pose proof (Hg g_resource) as Hres.
  pose proof (Hg g_rmutex) as Hrm. pose proof (Hg g_wmutex) as Hwm.
  pose proof (Hk c_readcount) as Hrc. pose proof (Hk c_writecount) as Hwc.
  rewrite Hh in Ho, Hres, Hrm, Hwm.
  destruct (lk st) as [md [ao] [ar] [arm] [awm] rc wc].
  unfold avail in *. simpl in *. subst md rc wc. simpl in *.
  unfold construct. simpl. unfold Semaphore.init.
  repeat f_equal; lia.
Qed.

Lemma balanced_accounting_witness :
  forallb paired demo_progs = true
  /\ run demo_complete (init FairOrder demo_progs) = Some demo_state_complete
  /\ forallb finished (pool demo_state_complete) = true
  /\ lk demo_state_complete = construct (Some FairOrder).
Proof.
  split; [reflexivity|]. split; [vm_compute; reflexivity|].
  split; [reflexivity|].
  apply (balanced_accounting FairOrder demo_progs demo_complete
           demo_state_complete);
    vm_compute; reflexivity.
Defined.

(** ** The mode is fixed at construction *)

(** C8. In every interleaving of threads making any calls on a lock
    constructed with [mode]: the lock still has that mode; a call entered
    now runs the statements the constructed lock would have run; every
    thread inside a call stands in the private function that [mode]
    selects; and no step of a thread, and no call run from entry to return,
    changes the mode. *)
Theorem mode_immutable (mode : RWLockMode) (progs : list (list op))
    (sched : list nat) (st : state) :
  run sched (init mode progs) = Some st ->
  m_mode (lk st) = mode
  /\ (forall o, method o (lk st) = method o (construct (Some mode)))
  /\ Forall (in_call (variant_of mode)) (pool st)
  /\ (forall i t0 L' t',
        pool st !! i = Some t0 -> thread_step (lk st) t0 = Some (L', t') ->
        m_mode L' = mode)
  /\ (forall o L' tr, call o (lk st) = Done (L', tr) -> m_mode L' = mode).
Proof.
  intros Hrun. destruct (reach_mode mode progs sched st Hrun) as [Hm Hin].
  split; [exact Hm|]. split; [|split; [exact Hin|split]].
  - intros o. rewrite !method_body, Hm. reflexivity.
  - intros i t0 L' t' _ Hs. rewrite <- Hm. eapply thread_step_mode, Hs.
  - intros o L' tr Hc. rewrite <- Hm. eapply exec_mode, Hc.
Qed.

Lemma mode_immutable_witness :
  run demo_writing (init FairOrder demo_progs) = Some demo_state_writing
  /\ m_mode (lk demo_state_writing) = FairOrder
  /\ (forall o, method o (lk demo_state_writing)
                = method o (construct (Some FairOrder)))
  /\ Forall (in_call (variant_of FairOrder)) (pool demo_state_writing)
  /\ (forall i t0 L' t',
        pool demo_state_writing !! i = Some t0 ->
        thread_step (lk demo_state_writing) t0 = Some (L', t') ->
        m_mode L' = FairOrder)
  /\ (forall o L' tr,
        call o (lk demo_state_writing) = Done (L', tr) ->
        m_mode L' = FairOrder).
Proof.
  split; [vm_compute; reflexivity|].
  apply (mode_immutable FairOrder demo_progs demo_writing demo_state_writing).
  vm_compute; reflexivity.
Defined.

(** ** The protocols, call by call *)

Lemma no_wrap_spec L :
  no_wrap L = true ->
  forall g, 0 <= avail g L /\ avail g L + 1 < 2 ^ SIZE_BITS.
Proof.
  unfold no_wrap. simpl. rewrite !andb_true_r, !andb_true_iff.
  rewrite !Z.leb_le, !Z.ltb_lt. intros H g. destruct g; tauto.
Qed.

Ltac lock_fields L H :=
  pose proof (no_wrap_spec L H g_order);
  pose proof (no_wrap_spec L H g_resource);
  pose proof (no_wrap_spec L H g_rmutex);
  pose proof (no_wrap_spec L H g_wmutex);
  clear H;
  destruct L as [?md [?ao] [?ar] [?arm] [?awm] ?rc ?wc];
  unfold avail in *; simpl in *.

Ltac seq_view :=
  cbv -[Z.ltb Z.eqb Z.add Z.sub Z.opp size_t LONG_MAX LONG_MIN Z.le Z.lt
        not Z.pow SIZE_BITS].

Ltac unwrap :=
  repeat match goal with
  | |- context [size_t ?z] => rewrite (size_t_small z) by lia
  end.

(** Closes [runs c L enabled L' tr] for straight-line [c]. *)
Ltac solve_runs :=
  split;
  [ intros; seq_view; zbool; try lia; unwrap;
    rewrite ?Z.sub_add, ?Z.add_simpl_r; reflexivity
  | intros ?r; seq_view; zbool; try discriminate; intros _; lia ].

(** C4. With [m_mode = ReadersPriority]: [AcquireShared] acquires
    [m_rmutex], increments [m_readcount], acquires [m_resource] if and only
    if the counter became 1, and releases [m_rmutex]; [ReleaseShared]
    acquires [m_rmutex], decrements [m_readcount], releases [m_resource] if
    and only if the counter reached 0, and releases [m_rmutex];
    [AcquireExclusive] and [ReleaseExclusive] acquire and release
    [m_resource] and change nothing else. *)
Theorem readers_priority_protocol (L : t) :
  m_mode L = ReadersPriority -> no_wrap L = true ->
  runs (AcquireShared L) L
    (0 < avail g_rmutex L /\ m_readcount L < LONG_MAX
     /\ (m_readcount L + 1 = 1 -> 0 < avail g_resource L))
    (set_count c_readcount (m_readcount L + 1)
       (if m_readcount L + 1 =? 1
        then set_avail g_resource (avail g_resource L - 1) L else L))
    ([EvCall (Acq g_rmutex); EvInc c_readcount (m_readcount L + 1)]
     ++ when_eq (m_readcount L + 1) 1 (EvCall (Acq g_resource))
     ++ [EvCall (Rel g_rmutex)])
  /\ runs (ReleaseShared L) L
       (0 < avail g_rmutex L /\ LONG_MIN < m_readcount L)
       (set_count c_readcount (m_readcount L - 1)
          (if m_readcount L - 1 =? 0
           then set_avail g_resource (avail g_resource L + 1) L else L))
       ([EvCall (Acq g_rmutex); EvDec c_readcount (m_readcount L - 1)]
        ++ when_eq (m_readcount L - 1) 0 (EvCall (Rel g_resource))
        ++ [EvCall (Rel g_rmutex)])
  /\ runs (AcquireExclusive L) L
       (0 < avail g_resource L)
       (set_avail g_resource (avail g_resource L - 1) L)
       [EvCall (Acq g_resource)]
  /\ runs (ReleaseExclusive L) L
       True
       (set_avail g_resource (avail g_resource L + 1) L)
       [EvCall (Rel g_resource)].
Proof.
  intros Hm Hnw. lock_fields L Hnw. subst md.
  split; [|split; [|split]]; solve_runs.
Qed.

Lemma readers_priority_protocol_witness :
  m_mode (construct (Some ReadersPriority)) = ReadersPriority
  /\ no_wrap (construct (Some ReadersPriority)) = true
  /\ exec (AcquireShared (construct (Some ReadersPriority)))
          (construct (Some ReadersPriority))
     = Done (set_count c_readcount 1
               (set_avail g_resource 0 (construct (Some ReadersPriority))),
             [EvCall (Acq g_rmutex); EvInc c_readcount 1;
              EvCall (Acq g_resource); EvCall (Rel g_rmutex)]).
Proof.
  split; [reflexivity|]. split; [reflexivity|].
  apply (proj1 (proj1 (readers_priority_protocol
                         (construct (Some ReadersPriority))
                         eq_refl eq_refl))).
  vm_compute. repeat split; discriminate.
Defined.

(** C5. With [m_mode = WritersPriority]: [AcquireExclusive] acquires
    [m_wmutex], increments [m_writecount], acquires [m_order] if and only if
    the counter became 1, releases [m_wmutex] and acquires [m_resource], in
    this order; [ReleaseExclusive] releases [m_resource], acquires
    [m_wmutex], decrements [m_writecount], releases [m_order] if and only if
    the counter reached 0, and releases [m_wmutex], in this order. *)
Theorem writers_priority_protocol (L : t) :
  m_mode L = WritersPriority -> no_wrap L = true ->
  runs (AcquireExclusive L) L
    (0 < avail g_wmutex L /\ m_writecount L < LONG_MAX
     /\ (m_writecount L + 1 = 1 -> 0 < avail g_order L)
     /\ 0 < avail g_resource L)
    (set_avail g_resource (avail g_resource L - 1)
       (set_count c_writecount (m_writecount L + 1)
          (if m_writecount L + 1 =? 1
           then set_avail g_order (avail g_order L - 1) L else L)))
    ([EvCall (Acq g_wmutex); EvInc c_writecount (m_writecount L + 1)]
     ++ when_eq (m_writecount L + 1) 1 (EvCall (Acq g_order))
     ++ [EvCall (Rel g_wmutex); EvCall (Acq g_resource)])
  /\ runs (ReleaseExclusive L) L
       (0 < avail g_wmutex L /\ LONG_MIN < m_writecount L)
       (set_count c_writecount (m_writecount L - 1)
          (if m_writecount L - 1 =? 0
           then set_avail g_order (avail g_order L + 1)
                  (set_avail g_resource (avail g_resource L + 1) L)
           else set_avail g_resource (avail g_resource L + 1) L))
       ([EvCall (Rel g_resource); EvCall (Acq g_wmutex);
         EvDec c_writecount (m_writecount L - 1)]
        ++ when_eq (m_writecount L - 1) 0 (EvCall (Rel g_order))
        ++ [EvCall (Rel g_wmutex)]).
Proof.
  intros Hm Hnw. lock_fields L Hnw. subst md.
  split; solve_runs.
Qed.

Lemma writers_priority_protocol_witness :
  m_mode (construct (Some WritersPriority)) = WritersPriority
  /\ no_wrap (construct (Some WritersPriority)) = true
  /\ exec (AcquireExclusive (construct (Some WritersPriority)))
          (construct (Some WritersPriority))
     = Done (set_avail g_resource 0
               (set_count c_writecount 1
                  (set_avail g_order 0 (construct (Some WritersPriority)))),
             [EvCall (Acq g_wmutex); EvInc c_writecount 1;
              EvCall (Acq g_order); EvCall (Rel g_wmutex);
              EvCall (Acq g_resource)]).
Proof.
  split; [reflexivity|]. split; [reflexivity|].
  apply (proj1 (proj1 (writers_priority_protocol
                         (construct (Some WritersPriority))
                         eq_refl eq_refl))).
  vm_compute. repeat split; discriminate.
Defined.

(** C6. [AcquireShared3], which [AcquireShared] runs with
    [m_mode = FairOrder], and [AcquireShared2], which it runs with
    [m_mode = WritersPriority], return in the same states, leave the same
    lock and do the same actions first: acquire [m_order], acquire
    [m_rmutex], increment [m_readcount], acquire [m_resource] if and only if
    the counter became 1.  They end differently: the former releases
    [m_order] and then [m_rmutex], the latter [m_rmutex] and then
    [m_order]. *)
Theorem fair_order_release_order (L : t) :
  no_wrap L = true ->
  (m_mode L = FairOrder -> AcquireShared L = AcquireShared3)
  /\ (m_mode L = WritersPriority -> AcquireShared L = AcquireShared2)
  /\ runs AcquireShared3 L
       (0 < avail g_order L /\ 0 < avail g_rmutex L
        /\ m_readcount L < LONG_MAX
        /\ (m_readcount L + 1 = 1 -> 0 < avail g_resource L))
       (set_count c_readcount (m_readcount L + 1)
          (if m_readcount L + 1 =? 1
           then set_avail g_resource (avail g_resource L - 1) L else L))
       ([EvCall (Acq g_order); EvCall (Acq g_rmutex);
         EvInc c_readcount (m_readcount L + 1)]
        ++ when_eq (m_readcount L + 1) 1 (EvCall (Acq g_resource))
        ++ [EvCall (Rel g_order); EvCall (Rel g_rmutex)])
  /\ runs AcquireShared2 L
       (0 < avail g_order L /\ 0 < avail g_rmutex L
        /\ m_readcount L < LONG_MAX
        /\ (m_readcount L + 1 = 1 -> 0 < avail g_resource L))
       (set_count c_readcount (m_readcount L + 1)
          (if m_readcount L + 1 =? 1
           then set_avail g_resource (avail g_resource L - 1) L else L))
       ([EvCall (Acq g_order); EvCall (Acq g_rmutex);
         EvInc c_readcount (m_readcount L + 1)]
        ++ when_eq (m_readcount L + 1) 1 (EvCall (Acq g_resource))
        ++ [EvCall (Rel g_rmutex); EvCall (Rel g_order)]).
Proof.
  intros Hnw. split; [|split].
  - unfold AcquireShared. intros ->. reflexivity.
  - unfold AcquireShared. intros ->. reflexivity.
  - lock_fields L Hnw. split; solve_runs.
Qed.

Lemma fair_order_release_order_witness :
  no_wrap (construct None) = true
  /\ exec AcquireShared3 (construct None)
     = Done (set_count c_readcount 1
               (set_avail g_resource 0 (construct None)),
             [EvCall (Acq g_order); EvCall (Acq g_rmutex);
              EvInc c_readcount 1; EvCall (Acq g_resource);
              EvCall (Rel g_order); EvCall (Rel g_rmutex)])
  /\ exec AcquireShared2 (construct None)
     = Done (set_count c_readcount 1
               (set_avail g_resource 0 (construct None)),
             [EvCall (Acq g_order); EvCall (Acq g_rmutex);
              EvInc c_readcount 1; EvCall (Acq g_resource);
              EvCall (Rel g_rmutex); EvCall (Rel g_order)]).
Proof.
  split; [reflexivity|].
  destruct (fair_order_release_order (construct None) eq_refl)
    as (_ & _ & [H3 _] & [H2 _]).
  split; [apply H3 | apply H2]; vm_compute; repeat split; discriminate.
Defined.

(** C9. A lock constructed without a mode has [m_mode = FairOrder]; and on
    a lock whose mode is neither [ReadersPriority] nor [WritersPriority],
    whatever else it is, the four public functions run the third private
    functions, those of the [default] branches, as they do on the lock
    constructed without a mode. *)
Theorem default_is_fair_order (L : t) :
  m_mode L <> ReadersPriority -> m_mode L <> WritersPriority ->
  m_mode (construct None) = FairOrder
  /\ construct None = construct (Some FairOrder)
  /\ AcquireExclusive L = AcquireExclusive3
  /\ ReleaseExclusive L = ReleaseExclusive3
  /\ AcquireShared L = AcquireShared3
  /\ ReleaseShared L = ReleaseShared3
  /\ (forall o, method o L = method o (construct None)).
Proof.
  intros H1 H2.
  assert (forall (A : Type) (a b c : A), switch (m_mode L) a b c = c) as Hsw.
  { intros A a b c. unfold switch.
    destruct (Z.eqb_spec (m_mode L) ReadersPriority); [contradiction|].
    destruct (Z.eqb_spec (m_mode L) WritersPriority); [contradiction|].
    reflexivity. }
  split; [reflexivity|]. split; [reflexivity|].
  unfold AcquireExclusive, ReleaseExclusive, AcquireShared, ReleaseShared.
  rewrite !Hsw. repeat (split; [reflexivity|]).
  intros o. destruct o; simpl;
    unfold AcquireExclusive, ReleaseExclusive, AcquireShared, ReleaseShared;
    rewrite Hsw; reflexivity.
Qed.

Lemma default_is_fair_order_witness :
  m_mode (construct (Some 3)) <> ReadersPriority
  /\ m_mode (construct (Some 3)) <> WritersPriority
  /\ AcquireExclusive (construct (Some 3)) = AcquireExclusive3
  /\ AcquireShared (construct (Some 3)) = AcquireShared3.
Proof.
  assert (m_mode (construct (Some 3)) <> ReadersPriority) as H1
    by (vm_compute; discriminate).
  assert (m_mode (construct (Some 3)) <> WritersPriority) as H2
    by (vm_compute; discriminate).
  split; [exact H1|]. split; [exact H2|].
  destruct (default_is_fair_order (construct (Some 3)) H1 H2)
    as (_ & _ & HA & _ & HS & _).
  split; [exact HA | exact HS].
Defined.

(** ** ReleaseShared is one protocol *)

(** C10. The three private functions [ReleaseShared1], [ReleaseShared2] and
    [ReleaseShared3] are the same statements, so the public [ReleaseShared]
    runs them whatever the mode, and they are the same function of the
    lock; where the decrement is defined, that function is the protocol of
    the specification, done in its order. *)
Theorem release_shared_same (L : t) :
  LONG_MIN < m_readcount L ->
  ReleaseShared1 = ReleaseShared2
  /\ ReleaseShared2 = ReleaseShared3
  /\ ReleaseShared L = ReleaseShared1
  /\ exec ReleaseShared1 L = exec ReleaseShared2 L
  /\ exec ReleaseShared2 L = exec ReleaseShared3 L
  /\ call OpReleaseShared L = exec ReleaseShared1 L
  /\ ('(L', _) ← call OpReleaseShared L; mret L') = ReleaseShared_protocol L
  /\ (forall L' tr, call OpReleaseShared L = Done (L', tr) ->
        tr = [EvCall (Acq g_rmutex); EvDec c_readcount (m_readcount L - 1)]
             ++ when_eq (m_readcount L - 1) 0 (EvCall (Rel g_resource))
             ++ [EvCall (Rel g_rmutex)]).
Proof.
  intros Hmin.
  assert (ReleaseShared L = ReleaseShared1) as Hsame.
  { unfold ReleaseShared, switch.
    destruct (m_mode L =? ReadersPriority); [reflexivity|].
    destruct (m_mode L =? WritersPriority); reflexivity. }
  assert (call OpReleaseShared L = exec ReleaseShared1 L) as Hcall.
  { unfold call. simpl. rewrite Hsame. reflexivity. }
  repeat (split; [reflexivity || assumption|]).
  rewrite Hcall. clear Hsame Hcall.
  destruct L as [md [ao] [ar] [arm] [awm] rc wc]. simpl in Hmin.
  split.
  - seq_view. zbool; try lia; reflexivity.
  - intros L' tr. seq_view. zbool; try discriminate; try lia.
    all: intros Heq; injection Heq as _ <-; reflexivity.
Qed.

Lemma release_shared_same_witness :
  LONG_MIN < m_readcount (set_count c_readcount 1 (construct None))
  /\ ('(L', _) ← call OpReleaseShared
                   (set_count c_readcount 1 (construct None));
      mret L')
     = ReleaseShared_protocol (set_count c_readcount 1 (construct None)).
Proof.
  assert (LONG_MIN < m_readcount (set_count c_readcount 1 (construct None)))
    as H by (vm_compute; reflexivity).
  split; [exact H|].
  destruct (release_shared_same _ H) as (_ & _ & _ & _ & _ & _ & HP & _).
  exact HP.
Defined.

(** ** The semaphore *)

(** C3. On a semaphore whose [m_avail] is a [size_t]: [Acquire] makes its
    caller wait exactly when [m_avail] is 0; it returns exactly when
    [m_avail] is positive, and has then decremented it by one, to 0 when it
    was 1 and never below 0; and a thread whose next statement is
    [m_g.Acquire()] has no step exactly when [m_avail] of [m_g] is 0. *)
Theorem acquire_waits_or_decrements (s : Semaphore.t) :
  Semaphore.in_range s ->
  (Semaphore.Acquire s = Waits <-> Semaphore.m_avail s = 0)
  /\ (0 < Semaphore.m_avail s <->
      Semaphore.Acquire s
      = Done {| Semaphore.m_avail := Semaphore.m_avail s - 1 |})
  /\ (forall s', Semaphore.Acquire s = Done s' ->
        Semaphore.m_avail s' = Semaphore.m_avail s - 1
        /\ 0 <= Semaphore.m_avail s')
  /\ (Semaphore.m_avail s = 1 ->
      Semaphore.Acquire s = Done {| Semaphore.m_avail := 0 |})
  /\ Semaphore.Acquire s <> Undefined
  /\ (forall L g o c td,
        sem g L = s ->
        thread_step L {| cur := o; pc := Call (Acq g) :: c; todo := td |}
        = None
        <-> Semaphore.m_avail s = 0).
Proof.
  intros [Hlo Hhi]. destruct s as [a]. simpl in *.
  unfold Semaphore.Acquire. simpl.
  assert (0 < a -> size_t (a - 1) = a - 1) as Hsz
    by (intros; apply size_t_small; lia).
  split; [|split; [|split; [|split; [|split]]]].
  - destruct (Z.ltb_spec 0 a); split; intros H'; try discriminate H';
      try reflexivity; lia.
  - destruct (Z.ltb_spec 0 a); split; intros H'; try discriminate H';
      try lia. rewrite Hsz by lia. reflexivity.
  - intros s'. destruct (Z.ltb_spec 0 a); intros H'; try discriminate H'.
    injection H' as <-. simpl. rewrite Hsz by lia. lia.
  - intros ->. reflexivity.
  - destruct (0 <? a); discriminate.
  - intros L g o c td HL. unfold thread_step, fetch. simpl.
    unfold Semaphore.Acquire. rewrite HL. simpl.
    destruct (Z.ltb_spec 0 a); simpl; split; intros H';
      try discriminate H'; try reflexivity; lia.
Qed.

Lemma acquire_waits_or_decrements_witness :
  Semaphore.in_range Semaphore.init
  /\ Semaphore.Acquire Semaphore.init = Done {| Semaphore.m_avail := 0 |}.
Proof.
  assert (Semaphore.in_range Semaphore.init) as H
    by (vm_compute; split; [discriminate | reflexivity]).
  split; [exact H|].
  destruct (acquire_waits_or_decrements Semaphore.init H)
    as (_ & _ & _ & H1 & _).
  apply H1. reflexivity.
Defined.

Lemma answered_run cs : forall rest held s0 s,
  Semaphore.answered held (cs ++ rest) = true ->
  Semaphore.m_avail s0 + Z.of_nat held = 1 -> 0 <= Semaphore.m_avail s0 ->
  Semaphore.run cs s0 = Done s ->
  exists held',
    Semaphore.answered held' rest = true
    /\ Semaphore.m_avail s + Z.of_nat held' = 1
    /\ 0 <= Semaphore.m_avail s.
Proof.
  induction cs as [|c cs IH]; intros rest held s0 s Ha Hs H0 Hrun.
  - simpl in Hrun. injection Hrun as <-. exists held. auto.
  - destruct s0 as [a]. simpl in Hs, H0. destruct c; simpl in Ha, Hrun.
    + unfold Semaphore.Acquire in Hrun. simpl in Hrun.
      destruct (Z.ltb_spec 0 a); simpl in Hrun; [|discriminate Hrun].
      assert (a = 1) as -> by lia.
      eapply (IH rest (S held)); [exact Ha| | |exact Hrun]; simpl;
        rewrite size_t_small by (unfold SIZE_BITS; lia); lia.
    + destruct held as [|h]; [discriminate Ha|].
      assert (a = 0) as -> by lia.
      eapply (IH rest h); [exact Ha| | |exact Hrun]; simpl;
        rewrite size_t_small by (unfold SIZE_BITS; lia); lia.
Qed.

(** C2, as the code has it.  In every sequence of calls of [Acquire] and
    [Release] on a semaphore in which each [Release] answers an [Acquire]
    made before it and not yet answered, [m_avail] is 0 or 1 after every
    call, and each [Release] finds it 0 and sets it to 1. *)
Theorem answered_release_sets_one (cs rest : list Semaphore.call)
    (s : Semaphore.t) :
  Semaphore.answered 0 (cs ++ rest) = true ->
  Semaphore.run cs Semaphore.init = Done s ->
  (Semaphore.m_avail s = 0 \/ Semaphore.m_avail s = 1)
  /\ (forall rest', rest = Semaphore.CRelease :: rest' ->
        Semaphore.m_avail s = 0
        /\ Semaphore.m_avail (Semaphore.Release s) = 1).
Proof.
  intros Ha Hrun.
  destruct (answered_run cs rest 0%nat Semaphore.init s Ha) as (h & Hh & Hs & H0);
    [reflexivity | simpl; lia | exact Hrun |].
  split; [lia|].
  intros rest' ->. simpl in Hh. destruct h as [|h]; [discriminate Hh|].
  assert (Semaphore.m_avail s = 0) as Hz by lia.
  split; [exact Hz|]. unfold Semaphore.Release. simpl. rewrite Hz.
  reflexivity.
Qed.

Lemma answered_release_sets_one_witness :
  Semaphore.answered 0
    ([Semaphore.CAcquire; Semaphore.CRelease; Semaphore.CAcquire]
     ++ [Semaphore.CRelease]) = true
  /\ Semaphore.run
       [Semaphore.CAcquire; Semaphore.CRelease; Semaphore.CAcquire]
       Semaphore.init
     = Done {| Semaphore.m_avail := 0 |}
  /\ Semaphore.m_avail (Semaphore.Release {| Semaphore.m_avail := 0 |}) = 1.
Proof.
  split; [reflexivity|]. split; [reflexivity|].
  apply (proj2 (answered_release_sets_one
                  [Semaphore.CAcquire; Semaphore.CRelease; Semaphore.CAcquire]
                  [Semaphore.CRelease] {| Semaphore.m_avail := 0 |}
                  eq_refl eq_refl) []).
  reflexivity.
Defined.

(** C2, as it is stated, fails: [Release] increments [m_avail] whatever its
    value, so a [Release] on the semaphore as constructed leaves 2. *)
Lemma release_exceeds_one :
  Semaphore.run [Semaphore.CRelease] Semaphore.init
  = Done {| Semaphore.m_avail := 2 |}
  /\ ~ (forall cs s,
          Semaphore.run cs Semaphore.init = Done s ->
          (Semaphore.m_avail s = 0 \/ Semaphore.m_avail s = 1)
          /\ Semaphore.m_avail (Semaphore.Release s) = 1).
Proof.
  split; [reflexivity|].
  intros H. destruct (H [Semaphore.CRelease] _ eq_refl) as [[H0|H1] _].
  - discriminate H0.
  - discriminate H1.
Qed.

(** * Further properties of the code *)

Lemma sized_spec L :
  sized L = true ->
  (forall g, 0 <= avail g L < 2 ^ SIZE_BITS)
  /\ (forall k, LONG_MIN <= count k L <= LONG_MAX).
Proof.
  unfold sized. simpl. rewrite !andb_true_r, !andb_true_iff.
  rewrite !Z.leb_le, !Z.ltb_lt. intros H.
  split; [intros g; destruct g | intros k; destruct k]; tauto.
Qed.

Lemma call_body o L : call o L = exec (body (variant_of (m_mode L)) o) L.
Proof. unfold call. rewrite method_body. reflexivity. Qed.

Ltac sized_fields L H :=
  pose proof (proj1 (sized_spec L H) g_order);
  pose proof (proj1 (sized_spec L H) g_resource);
  pose proof (proj1 (sized_spec L H) g_rmutex);
  pose proof (proj1 (sized_spec L H) g_wmutex);
  pose proof (proj2 (sized_spec L H) c_readcount);
  pose proof (proj2 (sized_spec L H) c_writecount);
  clear H;
  destruct L as [?md [?ao] [?ar] [?arm] [?awm] ?rc ?wc];
  unfold avail, count in *; simpl in *.

Ltac seq_view_in H :=
  cbv -[Z.ltb Z.eqb Z.add Z.sub Z.opp size_t LONG_MAX LONG_MIN Z.le Z.lt
        not Z.pow SIZE_BITS] in H.

(** ** Semaphore: release after acquire, acquire after release *)

(** X1. On a semaphore whose [m_avail] is a [size_t]: [Release] undoes an
    [Acquire] that returned; [Acquire] undoes a [Release] unless [m_avail]
    was the largest [size_t], in which case the increment wraps to 0 and
    the next [Acquire] waits. *)
Theorem semaphore_round_trip (s : Semaphore.t) :
  Semaphore.in_range s ->
  (forall s', Semaphore.Acquire s = Done s' -> Semaphore.Release s' = s)
  /\ (Semaphore.m_avail s < SIZE_MAX ->
      Semaphore.Acquire (Semaphore.Release s) = Done s)
  /\ (Semaphore.m_avail s = SIZE_MAX ->
      Semaphore.Release s = {| Semaphore.m_avail := 0 |}
      /\ Semaphore.Acquire (Semaphore.Release s) = Waits).
Proof.
  intros [Hlo Hhi]. destruct s as [a]. simpl in *.
  unfold Semaphore.Acquire, Semaphore.Release, SIZE_MAX. simpl.
  split; [|split].
  - intros s'. destruct (Z.ltb_spec 0 a); intros H'; [|discriminate H'].
    injection H' as <-. simpl. rewrite (size_t_small (a - 1)) by lia.
    rewrite Z.sub_add. rewrite size_t_small by lia. reflexivity.
  - intros Hlt. rewrite (size_t_small (a + 1)) by lia.
    destruct (Z.ltb_spec 0 (a + 1)); [|lia].
    rewrite Z.add_simpl_r. rewrite size_t_small by lia. reflexivity.
  - intros ->. rewrite Z.sub_add.
    assert (size_t (2 ^ SIZE_BITS) = 0) as -> by reflexivity.
    split; reflexivity.
Qed.

Lemma semaphore_round_trip_witness :
  Semaphore.in_range Semaphore.init
  /\ Semaphore.Acquire (Semaphore.Release Semaphore.init)
     = Done Semaphore.init.
Proof.
  assert (Semaphore.in_range Semaphore.init) as H
    by (vm_compute; split; [discriminate | reflexivity]).
  split; [exact H|].
  apply (proj1 (proj2 (semaphore_round_trip Semaphore.init H))).
  reflexivity.
Defined.

(** ** A call and its release, on any lock *)

(** X2. Whatever the mode and whatever the state of a lock whose members
    hold values of their types: if [AcquireShared] returns, a
    [ReleaseShared] that follows it returns too and leaves the lock exactly
    as it was before the pair; the same for [AcquireExclusive] and
    [ReleaseExclusive]. *)
Theorem session_restores_lock (L L1 : t) (tr : list event) :
  sized L = true ->
  (call OpAcquireShared L = Done (L1, tr) ->
   exists tr', call OpReleaseShared L1 = Done (L, tr'))
  /\ (call OpAcquireExclusive L = Done (L1, tr) ->
      exists tr', call OpReleaseExclusive L1 = Done (L, tr')).
Proof.
  intros Hs.
  assert (forall o o', call o L = Done (L1, tr) ->
            call o' L1 = exec (body (variant_of (m_mode L)) o') L1) as Hb.
  { intros o o' Hc. rewrite call_body.
    rewrite (exec_mode _ _ _ _ Hc : m_mode L1 = m_mode L). reflexivity. }
  split; intros Hc; rewrite (Hb _ _ Hc); rewrite call_body in Hc; clear Hb;
    sized_fields L Hs; destruct (variant_of md).
  all: seq_view_in Hc; zbool; try discriminate Hc.
  all: injection Hc as <- <-.
  all: seq_view; unwrap; zbool; unfold LONG_MIN, LONG_MAX in *; try lia.
  all: unwrap; rewrite ?Z.sub_add, ?Z.add_simpl_r; eexists; reflexivity.
Qed.

Lemma session_restores_lock_witness :
  sized (construct (Some WritersPriority)) = true
  /\ exists tr',
       call OpReleaseExclusive
         (set_avail g_resource 0
            (set_count c_writecount 1
               (set_avail g_order 0 (construct (Some WritersPriority)))))
       = Done (construct (Some WritersPriority), tr').
Proof.
  split; [reflexivity|].
  apply (proj2 (session_restores_lock
                  (construct (Some WritersPriority)) _
                  [EvCall (Acq g_wmutex); EvInc c_writecount 1;
                   EvCall (Acq g_order); EvCall (Rel g_wmutex);
                   EvCall (Acq g_resource)] eq_refl)).
  reflexivity.
Defined.

(** ** What the lock keeps in every interleaving *)

(** X3. In every interleaving of threads whose calls are paired, on a lock
    of any mode: each of the four semaphores counts 0 or 1, so none is ever
    released when it is available; and [m_readcount] and [m_writecount] lie
    between 0 and the number of threads. *)
Theorem lock_stays_binary (mode : RWLockMode) (progs : list (list op))
    (sched : list nat) (st : state) :
  forallb paired progs = true ->
  run sched (init mode progs) = Some st ->
  (forall g, avail g (lk st) = 0 \/ avail g (lk st) = 1)
  /\ (forall k, 0 <= count k (lk st) <= Z.of_nat (length progs)).
Proof.
  intros Hp Hrun.
  pose proof (Inv_reach mode progs sched st Hp Hrun) as [Hm Hwf Hr Hg Hc _].
  pose proof (pool_static _ _ _ Hm Hwf) as Hst.
  split.
  - intros g. specialize (Hr g). lia.
  - intros k. rewrite Hc.
    assert (length (pool st) = length progs) as <-.
    { rewrite (run_length _ _ _ Hrun). simpl. apply length_fmap. }
    split.
    + apply sumZ_nonneg. eapply Forall_impl; [exact Hst|].
      intros a Ha. apply (st_counted _ _ _ Ha k).
    + apply sumZ_le_length. eapply Forall_impl; [exact Hst|].
      intros a Ha. apply (st_counted _ _ _ Ha k).
Qed.

Lemma lock_stays_binary_witness :
  forallb paired demo_progs = true
  /\ run demo_writing (init FairOrder demo_progs) = Some demo_state_writing
  /\ (forall g, avail g (lk demo_state_writing) = 0
                \/ avail g (lk demo_state_writing) = 1)
  /\ (forall k, 0 <= count k (lk demo_state_writing)
                <= Z.of_nat (length demo_progs)).
Proof.
  split; [reflexivity|]. split; [vm_compute; reflexivity|].
  apply (lock_stays_binary FairOrder demo_progs demo_writing
           demo_state_writing);
    vm_compute; reflexivity.
Defined.

(** X4. In every interleaving of threads whose calls are paired: a thread
    whose next statement increments or decrements a counter holds the
    semaphore that guards it ([m_rmutex] for [m_readcount], [m_wmutex] for
    [m_writecount]), and the next statement of no other thread touches that
    counter.  The unsynchronised [++] and [--] never race. *)
Theorem counter_updates_guarded (mode : RWLockMode) (progs : list (list op))
    (sched : list nat) (st : state) (i : nat) (ti : thread)
    (k : counter) (si : stmt) :
  forallb paired progs = true ->
  run sched (init mode progs) = Some st ->
  pool st !! i = Some ti ->
  next_stmt (lk st) ti = Some si -> touches k si = true ->
  avail (guard k) (lk st) = 0
  /\ (forall j tj sj,
        j <> i -> pool st !! j = Some tj ->
        next_stmt (lk st) tj = Some sj -> touches k sj = false).
Proof.
  intros Hp Hrun Hi Hsi Hti.
  pose proof (Inv_reach mode progs sched st Hp Hrun) as [Hm Hwf Hr Hg Hc _].
  pose proof (pool_static _ _ _ Hm Hwf) as Hst.
  split.
  - assert (static (variant_of mode) (lk st) ti) as Si
      by (eapply Forall_lookup_1; eassumption).
    pose proof (st_touch _ _ _ Si k si Hsi Hti) as H1.
    assert (hold (guard k) ti <= sumZ (hold (guard k)) (pool st)) as Hle.
    { eapply sumZ_lookup_le; [|exact Hi].
      eapply Forall_impl; [exact Hst|]. intros a Ha.
      apply (st_guard _ _ _ Ha). }
    pose proof (Hg (guard k)) as Hgk. rewrite group_guard in Hgk.
    pose proof (Hr (guard k)). lia.
  - intros j tj sj Hne Hj Hsj.
    destruct (touches k sj) eqn:Htj; [|reflexivity]. exfalso.
    exact (race_free mode progs sched st j i tj ti k sj si
             Hp Hrun Hj Hi Hne Hsj Htj Hsi Hti).
Qed.

Lemma counter_updates_guarded_witness :
  forallb paired demo_progs = true
  /\ run demo_counting (init FairOrder demo_progs) = Some demo_state_counting
  /\ avail g_rmutex (lk demo_state_counting) = 0.
Proof.
  split; [reflexivity|]. split; [vm_compute; reflexivity|].
  apply (proj1 (counter_updates_guarded FairOrder demo_progs demo_counting
                  demo_state_counting 0
                  {| cur := Some OpAcquireShared;
                     pc := [ IfPreInc c_readcount (Acq g_resource);
                             Call (Rel g_order); Call (Rel g_rmutex) ];
                     todo := [OpReleaseShared] |}
                  c_readcount (IfPreInc c_readcount (Acq g_resource))
                  eq_refl eq_refl eq_refl eq_refl eq_refl)).
Defined.

(** X5. In every interleaving of no more than [LONG_MAX] threads whose
    calls are paired, the next statement of a thread never overflows a
    counter: [++m_readcount], [--m_readcount], [++m_writecount] and
    [--m_writecount] always have a defined result. *)
Theorem counters_never_overflow (mode : RWLockMode)
    (progs : list (list op)) (sched : list nat) (st : state)
    (i : nat) (ti : thread) (s : stmt) :
  forallb paired progs = true ->
  run sched (init mode progs) = Some st ->
  Z.of_nat (length progs) <= LONG_MAX ->
  pool st !! i = Some ti ->
  next_stmt (lk st) ti = Some s ->
  step_stmt s (lk st) <> Undefined.
Proof.
  intros Hp Hrun Hlen Hi Hn. unfold next_stmt in Hn.
  destruct (fetch (lk st) ti) as [t1|] eqn:Hf; simpl in Hn;
    [|discriminate Hn].
  destruct (pc t1) as [|s' c] eqn:Hpc; simpl in Hn; [discriminate Hn|].
  injection Hn as ->.
  exact (counters_defined mode progs sched st i ti t1 s c
           Hp Hrun Hlen Hi Hf Hpc).
Qed.

Lemma counters_never_overflow_witness :
  forallb paired demo_progs = true
  /\ run demo_counting (init FairOrder demo_progs) = Some demo_state_counting
  /\ Z.of_nat (length demo_progs) <= LONG_MAX
  /\ step_stmt (IfPreInc c_readcount (Acq g_resource))
       (lk demo_state_counting) <> Undefined.
Proof.
  assert (Z.of_nat (length demo_progs) <= LONG_MAX) as Hlen
    by (vm_compute; discriminate).
  split; [reflexivity|]. split; [vm_compute; reflexivity|].
  split; [exact Hlen|].
  apply (counters_never_overflow FairOrder demo_progs demo_counting
           demo_state_counting 0
           {| cur := Some OpAcquireShared;
              pc := [ IfPreInc c_readcount (Acq g_resource);
                      Call (Rel g_order); Call (Rel g_rmutex) ];
              todo := [OpReleaseShared] |}
           (IfPreInc c_readcount (Acq g_resource))
           eq_refl eq_refl Hlen eq_refl eq_refl).
Defined.

(** ** The members a mode does not use *)

Lemma thread_step_frame v L t0 L' t' :
  variant_of (m_mode L) = v -> in_call v t0 ->
  thread_step L t0 = Some (L', t') ->
  (v <> Second ->
   m_wmutex L' = m_wmutex L /\ m_writecount L' = m_writecount L)
  /\ (v = First -> m_order L' = m_order L).
Proof.
  intros Hv Hin Hstep.
  destruct t0 as [[o|] c td]; unfold in_call in Hin; simpl in Hin;
    [ destruct v, o; simpl in Hin;
      repeat (destruct Hin as [<- | Hin]); try contradiction
    | subst c ].
  all: try (destruct td as [|[] td]; try discriminate Hstep).
  all: unfold thread_step in Hstep; rewrite (fetch_body _ _ _ Hv) in Hstep;
       try destruct v; simpl in Hstep.
  all: destruct L as [md [ao] [ar] [arm] [awm] rc wc].
  all: arith_view_all.
  all: zbool; try discriminate Hstep; try discriminate Hv.
  all: injection Hstep as <- <-.
  all: split; [intros Hne; try (exfalso; apply Hne; reflexivity)
              | intros Heq; try discriminate Heq].
  all: try split; reflexivity.
Qed.

Lemma run_frame {A : Type} (f : t -> A) (v : variant) :
  (forall L t0 L' t',
     variant_of (m_mode L) = v -> in_call v t0 ->
     thread_step L t0 = Some (L', t') -> f L' = f L) ->
  forall sched st st',
    Forall (in_call v) (pool st) -> variant_of (m_mode (lk st)) = v ->
    run sched st = Some st' -> f (lk st') = f (lk st).
Proof.
  intros Hf. induction sched as [|i sched IH]; intros st st' Hin Hv Hrun;
    simpl in Hrun.
  - injection Hrun as <-. reflexivity.
  - destruct (step_thread i st) as [st1|] eqn:Hs; simpl in Hrun;
      [|discriminate Hrun].
    destruct (run_mode [i] v st st1 Hin Hv) as [HM Hin1].
    { simpl. rewrite Hs. reflexivity. }
    rewrite (IH st1 st' Hin1 (eq_trans (f_equal variant_of HM) Hv) Hrun).
    unfold step_thread in Hs.
    destruct (pool st !! i) as [t0|] eqn:Hi; simpl in Hs; [|discriminate Hs].
    destruct (thread_step (lk st) t0) as [[L' t']|] eqn:Ht; simpl in Hs;
      [|discriminate Hs].
    injection Hs as <-. simpl. eapply Hf; [exact Hv| |exact Ht].
    exact (Forall_lookup_1 _ _ _ _ Hin Hi).
Qed.

(** X6. In every interleaving of threads making any calls, paired or not:
    a lock whose mode is not [WritersPriority] never changes [m_wmutex] or
    [m_writecount], and a lock whose mode is [ReadersPriority] never changes
    [m_order] either; they stay as constructed. *)
Theorem unused_members_untouched (mode : RWLockMode)
    (progs : list (list op)) (sched : list nat) (st : state) :
  run sched (init mode progs) = Some st ->
  (mode <> WritersPriority ->
   m_wmutex (lk st) = Semaphore.init /\ m_writecount (lk st) = 0)
  /\ (mode = ReadersPriority -> m_order (lk st) = Semaphore.init).
Proof.
  intros Hrun.
  pose proof (init_in_call (variant_of mode) mode progs) as Hin.
  split.
  - intros Hne.
    assert (variant_of mode <> Second) as Hv.
    { unfold variant_of, switch.
      destruct (Z.eqb_spec mode ReadersPriority); [discriminate|].
      destruct (Z.eqb_spec mode WritersPriority); [contradiction|].
      discriminate. }
    split.
    + apply (run_frame m_wmutex (variant_of mode)
               (fun L t0 L' t' H1 H2 H3 =>
                  proj1 (proj1 (thread_step_frame _ _ _ _ _ H1 H2 H3) Hv))
               sched _ st Hin eq_refl Hrun).
    + apply (run_frame m_writecount (variant_of mode)
               (fun L t0 L' t' H1 H2 H3 =>
                  proj2 (proj1 (thread_step_frame _ _ _ _ _ H1 H2 H3) Hv))
               sched _ st Hin eq_refl Hrun).
  - intros ->.
    apply (run_frame m_order First
             (fun L t0 L' t' H1 H2 H3 =>
                proj2 (thread_step_frame _ _ _ _ _ H1 H2 H3) eq_refl)
             sched _ st Hin eq_refl Hrun).
Qed.

Lemma unused_members_untouched_witness :
  run demo_writing (init FairOrder demo_progs) = Some demo_state_writing
  /\ m_wmutex (lk demo_state_writing) = Semaphore.init
  /\ m_writecount (lk demo_state_writing) = 0.
Proof.
  split; [vm_compute; reflexivity|].
  apply (proj1 (unused_members_untouched FairOrder demo_progs demo_writing
                  demo_state_writing ltac:(vm_compute; reflexivity))).
  vm_compute. discriminate.
Defined.

(** ** No deadlock *)

Lemma thread_blocked v L t0 :
  variant_of (m_mode L) = v -> wf_thread v t0 ->
  (forall g, 0 <= avail g L <= 1) ->
  (forall k, counted v k t0 = 0 -> count k L < LONG_MAX) ->
  (forall k, LONG_MIN < count k L) ->
  thread_step L t0 = None ->
  blocked v L t0.
Proof.
  intros Hv Hwf Hok Hmax Hmin Hstep.
  pose proof (Hok g_order) as Ho; pose proof (Hok g_resource) as Hr;
  pose proof (Hok g_rmutex) as Hrm; pose proof (Hok g_wmutex) as Hwm.
  pose proof (Hmax c_readcount) as Hrx; pose proof (Hmax c_writecount) as Hwx.
  pose proof (Hmin c_readcount) as Hrn; pose proof (Hmin c_writecount) as Hwn.
  clear Hok Hmax Hmin.
  positions v t0 Hwf Hin Htd.
  all: try next_call Htd.
  all: unfold thread_step in Hstep; rewrite (fetch_body _ _ _ Hv) in Hstep;
       try destruct v; simpl in Hstep.
  all: destruct L as [md [ao] [ar] [arm] [awm] rc wc].
  all: arith_view_all.
  all: zbool; try discriminate Hstep; try discriminate Hv; try lia.
  all: split; arith_view; try lia.
  all: intros Hf; try discriminate Hf.
  all: first [ exists g_resource; arith_view; lia
             | exists g_rmutex; arith_view; lia
             | exists g_order; arith_view; lia
             | exists g_wmutex; arith_view; lia ].
Qed.

Lemma sumZ_nonpos {A : Type} (f : A -> Z) (l : list A) :
  Forall (fun a => f a <= 0) l -> sumZ f l <= 0.
Proof. induction 1; simpl; lia. Qed.

Lemma sumZ_nonpos_zero {A : Type} (f : A -> Z) (l : list A) :
  Forall (fun a => f a <= 0) l -> 0 <= sumZ f l ->
  Forall (fun a => f a = 0) l.
Proof.
  induction 1 as [|a l Ha Hl IH]; simpl; intros H0; constructor.
  - pose proof (sumZ_nonpos f l Hl). lia.
  - apply IH. pose proof (sumZ_nonpos f l Hl). lia.
Qed.

Lemma forallb_false_lookup {A : Type} (f : A -> bool) (l : list A) :
  forallb f l = false -> exists i x, l !! i = Some x /\ f x = false.
Proof.
  induction l as [|a l IH]; simpl; intros H; [discriminate H|].
  destruct (f a) eqn:Ha; simpl in H.
  - destruct (IH H) as (i & x & Hi & Hx). exists (S i), x. auto.
  - exists 0%nat, a. auto.
Qed.

(** When no thread can move, every semaphore is available. *)
Lemma stuck_available v st :
  Inv v st -> Z.of_nat (length (pool st)) <= LONG_MAX ->
  Forall (fun a => thread_step (lk st) a = None) (pool st) ->
  Forall (blocked v (lk st)) (pool st)
  /\ (forall g, avail g (lk st) = 1).
Proof.
  intros HI Hlen Hno. pose proof HI as [Hm Hwf Hr Hg Hc Hp].
  pose proof (pool_static v _ _ Hm Hwf) as Hst.
  assert (forall k, Forall (fun a => 0 <= counted v k a <= 1) (pool st))
    as Hcnt.
  { intros k. eapply Forall_impl; [exact Hst|]. intros a Ha.
    apply (st_counted _ _ _ Ha k). }
  assert (Forall (blocked v (lk st)) (pool st)) as HB.
  { apply Forall_lookup. intros i a Hi. apply thread_blocked.
    - exact Hm.
    - exact (Forall_lookup_1 _ _ _ _ Hwf Hi).
    - exact Hr.
    - intros k Hk0. rewrite Hc.
      assert (Forall (fun a => counted v k a <= 1) (pool st)) as Hle.
      { eapply Forall_impl; [exact (Hcnt k)|]. intros b Hb. simpl in Hb. lia. }
      pose proof (sumZ_lookup_slack _ _ _ _ Hle Hi). lia.
    - intros k. rewrite Hc.
      assert (Forall (fun a => 0 <= counted v k a) (pool st)) as Hge.
      { eapply Forall_impl; [exact (Hcnt k)|]. intros b Hb. simpl in Hb. lia. }
      pose proof (sumZ_nonneg _ _ Hge). unfold LONG_MIN. lia.
    - exact (Forall_lookup_1 _ _ _ _ Hno Hi). }
  split; [exact HB|].
  (* a holder of a taken guard *)
  assert (forall k, avail (guard k) (lk st) <> 1 ->
            exists j h, pool st !! j = Some h /\ hold (guard k) h = 1)
    as Hholder.
  { intros k Hne. pose proof (Hg (guard k)) as E. rewrite group_guard in E.
    pose proof (Hr (guard k)).
    destruct (sumZ_pos_lookup (hold (guard k)) (pool st)) as (j & h & Hj & Hh);
      [lia|].
    exists j, h. split; [exact Hj|].
    pose proof (st_hold _ _ _ (Forall_lookup_1 _ _ _ _ Hst Hj) (guard k)).
    lia. }
  (* the resource *)
  assert (avail g_resource (lk st) = 1) as Hres.
  { pose proof (Hr g_resource) as R.
    destruct (decide (avail g_resource (lk st) = 1)) as [|Hne]; [assumption|].
    exfalso.
    assert (Forall (fun a => hold g_resource a <= 0) (pool st)) as Hle.
    { eapply Forall_impl; [exact HB|]. intros a Ha. apply (b_res _ _ _ Ha). }
    pose proof (sumZ_nonpos _ _ Hle) as Hs.
    pose proof (Hg g_resource) as E. simpl in E.
    destruct (Z.ltb_spec 0 (m_readcount (lk st))) as [Hrc|]; [|lia].
    pose proof (sumZ_nonpos_zero _ _ Hle ltac:(lia)) as Hz.
    rewrite (Hc c_readcount : m_readcount _ = _) in Hrc.
    destruct (sumZ_pos_lookup _ _ Hrc) as (i & a & Hi & Ha).
    pose proof (Forall_lookup_1 _ _ _ _ (Hcnt c_readcount) Hi) as Ha1.
    simpl in Ha1.
    pose proof (b_cr _ _ _ (Forall_lookup_1 _ _ _ _ HB Hi) ltac:(lia)
                  (Forall_lookup_1 _ _ _ _ Hz Hi)) as Hrm0.
    destruct (Hholder c_readcount) as (j & h & Hj & Hh);
      [simpl; lia|]. simpl in Hh.
    destruct (b_rm _ _ _ (Forall_lookup_1 _ _ _ _ HB Hj) Hh) as [Hneg _].
    pose proof (Forall_lookup_1 _ _ _ _ Hz Hj) as Hz0. simpl in Hz0. lia. }
  (* the mutex of the readers *)
  assert (avail g_rmutex (lk st) = 1) as Hrmx.
  { destruct (decide (avail g_rmutex (lk st) = 1)) as [|Hne]; [assumption|].
    exfalso. destruct (Hholder c_readcount Hne) as (j & h & Hj & Hh).
    destruct (b_rm _ _ _ (Forall_lookup_1 _ _ _ _ HB Hj) Hh) as [_ H0]. lia. }
  (* the order gate *)
  assert (avail g_order (lk st) = 1) as Hord.
  { pose proof (Hr g_order) as R.
    destruct (decide (avail g_order (lk st) = 1)) as [|Hne]; [assumption|].
    exfalso.
    assert (Forall (fun a => hold g_order a <= 0) (pool st)) as Hle.
    { apply Forall_lookup. intros i a Hi.
      pose proof (st_hold _ _ _ (Forall_lookup_1 _ _ _ _ Hst Hi) g_order).
      destruct (decide (hold g_order a = 1)) as [H1|]; [|lia].
      destruct (b_ord _ _ _ (Forall_lookup_1 _ _ _ _ HB Hi) H1); lia. }
    pose proof (sumZ_nonpos _ _ Hle) as Hs.
    pose proof (Hg g_order) as E. simpl in E.
    destruct (Z.ltb_spec 0 (m_writecount (lk st))) as [Hwc|]; [|lia].
    pose proof (sumZ_nonpos_zero _ _ Hle ltac:(lia)) as Hz.
    rewrite (Hc c_writecount : m_writecount _ = _) in Hwc.
    destruct (sumZ_pos_lookup _ _ Hwc) as (i & a & Hi & Ha).
    pose proof (Forall_lookup_1 _ _ _ _ (Hcnt c_writecount) Hi) as Ha1.
    simpl in Ha1.
    destruct (b_cw _ _ _ (Forall_lookup_1 _ _ _ _ HB Hi) ltac:(lia)
                (Forall_lookup_1 _ _ _ _ Hz Hi)) as [H0|Hwm0]; [lia|].
    destruct (Hholder c_writecount) as (j & h & Hj & Hh);
      [simpl; lia|]. simpl in Hh.
    destruct (b_wm _ _ _ (Forall_lookup_1 _ _ _ _ HB Hj) Hh) as [Hneg _].
    pose proof (Forall_lookup_1 _ _ _ _ Hz Hj) as Hz0. simpl in Hz0. lia. }
  (* the mutex of the writers *)
  assert (avail g_wmutex (lk st) = 1) as Hwmx.
  { destruct (decide (avail g_wmutex (lk st) = 1)) as [|Hne]; [assumption|].
    exfalso. destruct (Hholder c_writecount Hne) as (j & h & Hj & Hh).
    destruct (b_wm _ _ _ (Forall_lookup_1 _ _ _ _ HB Hj) Hh) as [_ H0]. lia. }
  intros g. destruct g; assumption.
Qed.

Lemma Inv_progress v st :
  Inv v st -> Z.of_nat (length (pool st)) <= LONG_MAX ->
  forallb finished (pool st) = false ->
  exists i st', step_thread i st = Some st'.
Proof.
  intros HI Hlen Hfin.
  destruct (Forall_Exists_dec
              (fun a => thread_step (lk st) a = None)
              (fun a => thread_step (lk st) a <> None)
              (fun a => match thread_step (lk st) a as r
                              return ({r = None} + {r <> None}) with
                        | None => left eq_refl
                        | Some p => right (fun H : Some p = None =>
                                             eq_ind (Some p)
                                               (fun e => match e with
                                                         | Some _ => True
                                                         | None => False
                                                         end) I None H)
                        end)
              (pool st)) as [Hno|Hex].
  - exfalso. destruct (stuck_available v st HI Hlen Hno) as [HB Hav].
    destruct (forallb_false_lookup _ _ Hfin) as (i & a & Hi & Ha).
    destruct (b_some _ _ _ (Forall_lookup_1 _ _ _ _ HB Hi) Ha) as [g Hg0].
    rewrite (Hav g) in Hg0. discriminate Hg0.
  - apply Exists_exists in Hex as (a & Hin & Ha).
    apply list_elem_of_lookup in Hin as [i Hi].
    destruct (thread_step (lk st) a) as [[L' t']|] eqn:Hs; [|contradiction].
    exists i, {| lk := L'; pool := <[i := t']> (pool st) |}.
    unfold step_thread. rewrite Hi. simpl. rewrite Hs. reflexivity.
Qed.

Lemma code_weight_nonneg c : 0 <= code_weight c.
Proof.
  apply sumZ_nonneg, Forall_forall. intros s _. destruct s; simpl; lia.
Qed.

Lemma left_to_do_nonneg v t0 : 0 <= left_to_do v t0.
Proof.
  unfold left_to_do. pose proof (code_weight_nonneg (pc t0)).
  assert (0 <= sumZ (fun o => code_weight (body v o)) (todo t0)); [|lia].
  apply sumZ_nonneg, Forall_forall. intros o _. apply code_weight_nonneg.
Qed.

(** Every step of a thread uses up one of the actions it has left. *)
Lemma thread_step_left v L t0 L' t' :
  variant_of (m_mode L) = v ->
  thread_step L t0 = Some (L', t') -> left_to_do v t' < left_to_do v t0.
Proof.
  intros Hv Hstep. unfold thread_step in Hstep.
  rewrite (fetch_body _ _ _ Hv) in Hstep.
  assert (forall cu s c td,
            match step_stmt s L with
            | Done (L1, pushed, _) =>
                Some (L1, {| cur := cu; pc := pushed ++ c; todo := td |})
            | _ => None
            end = Some (L', t') ->
            left_to_do v t' < code_weight (s :: c)
                        + sumZ (fun o => code_weight (body v o)) td) as Hone.
  { intros cu s c td H.
    destruct (step_stmt s L) as [[[L1 pushed] e]| |] eqn:Hs;
      try discriminate H.
    injection H as <- <-. unfold left_to_do, code_weight. simpl.
    destruct s as [x|k x|k x]; unfold step_stmt in Hs; simpl in Hs.
    - destruct (do_call x L); simpl in Hs; try discriminate Hs.
      injection Hs as _ <- _. simpl. lia.
    - destruct (pre_inc k L) as [[L2 n]| |]; simpl in Hs;
        try discriminate Hs.
      injection Hs as _ <- _. destruct (n =? 1); simpl; lia.
    - destruct (pre_dec k L) as [[L2 n]| |]; simpl in Hs;
        try discriminate Hs.
      injection Hs as _ <- _. destruct (n =? 0); simpl; lia. }
  destruct t0 as [cu [|s c] td]; simpl in Hstep.
  - destruct td as [|o td]; simpl in Hstep; [discriminate Hstep|].
    destruct (body v o) as [|s c] eqn:Hb; simpl in Hstep;
      [discriminate Hstep|].
    apply Hone in Hstep. clear Hone.
    unfold left_to_do, code_weight in *. simpl. rewrite Hb.
    simpl in *. lia.
  - apply Hone in Hstep. clear Hone.
    unfold left_to_do, code_weight in *. simpl in *. lia.
Qed.

Lemma Inv_completes v (n : nat) : forall st,
  Inv v st -> Z.of_nat (length (pool st)) <= LONG_MAX ->
  sumZ (left_to_do v) (pool st) <= Z.of_nat n ->
  exists sched st',
    run sched st = Some st' /\ forallb finished (pool st') = true.
Proof.
  induction n as [|n IH]; intros st HI Hlen Hm;
    (destruct (forallb finished (pool st)) eqn:Hfin;
     [exists [], st; split; [reflexivity | exact Hfin]|]);
    destruct (Inv_progress v st HI Hlen Hfin) as (i & st1 & Hs);
    pose proof Hs as Hs'; unfold step_thread in Hs';
    (destruct (pool st !! i) as [t0|] eqn:Hi; simpl in Hs';
     [|discriminate Hs']);
    (destruct (thread_step (lk st) t0) as [[L' t']|] eqn:Ht; simpl in Hs';
     [|discriminate Hs']);
    injection Hs' as <-;
    pose proof (thread_step_left v _ _ _ _ (inv_mode _ _ HI) Ht) as Hlt;
    pose proof (sumZ_insert (left_to_do v) _ _ _ t' Hi) as Hsum;
    pose proof (left_to_do_nonneg v t').
  - exfalso.
    assert (0 <= sumZ (left_to_do v) (<[i:=t']> (pool st))); [|lia].
    apply sumZ_nonneg, Forall_forall. intros a _. apply left_to_do_nonneg.
  - destruct (IH _ (Inv_step v i st _ HI Hs)) as (sched & st' & Hrun & Hf).
    + simpl. rewrite length_insert. exact Hlen.
    + simpl. lia.
    + exists (i :: sched), st'. split; [|exact Hf].
      simpl. rewrite Hs. exact Hrun.
Qed.

(** X7. In every interleaving of no more than [LONG_MAX] threads whose
    calls are paired, on a lock of any mode: as long as some thread has not
    made all its calls, some thread can take a step; and the interleaving
    can be continued until every thread has made all its calls.  None of
    the three protocols deadlocks. *)
Theorem deadlock_free (mode : RWLockMode) (progs : list (list op))
    (sched : list nat) (st : state) :
  forallb paired progs = true ->
  run sched (init mode progs) = Some st ->
  Z.of_nat (length progs) <= LONG_MAX ->
  (forallb finished (pool st) = false ->
   exists i st', step_thread i st = Some st')
  /\ (exists more st',
        run (sched ++ more) (init mode progs) = Some st'
        /\ forallb finished (pool st') = true).
Proof.
  intros Hp Hrun Hlen.
  pose proof (Inv_reach mode progs sched st Hp Hrun) as HI.
  assert (Z.of_nat (length (pool st)) <= LONG_MAX) as Hlen'.
  { rewrite (run_length _ _ _ Hrun). simpl. rewrite length_fmap. exact Hlen. }
  split.
  - apply (Inv_progress _ st HI Hlen').
  - pose proof (sumZ_nonneg (left_to_do (variant_of mode)) (pool st)) as Hn.
    destruct (Inv_completes (variant_of mode)
                (Z.to_nat (sumZ (left_to_do (variant_of mode)) (pool st)))
                st HI Hlen') as (more & st' & Hmore & Hf).
    { rewrite Z2Nat.id; [lia|]. apply Hn, Forall_forall.
      intros a _. apply left_to_do_nonneg. }
    exists more, st'. split; [|exact Hf].
    rewrite run_app, Hrun. exact Hmore.
Qed.

Lemma deadlock_free_witness :
  forallb paired demo_progs = true
  /\ run demo_writing (init FairOrder demo_progs) = Some demo_state_writing
  /\ Z.of_nat (length demo_progs) <= LONG_MAX
  /\ exists i st', step_thread i demo_state_writing = Some st'.
Proof.
  assert (Z.of_nat (length demo_progs) <= LONG_MAX) as Hlen
    by (vm_compute; discriminate).
  split; [reflexivity|]. split; [vm_compute; reflexivity|].
  split; [exact Hlen|].
  apply (proj1 (deadlock_free FairOrder demo_progs demo_writing
                  demo_state_writing eq_refl
                  ltac:(vm_compute; reflexivity) Hlen)).
  reflexivity.
Defined.

(** ** The three policies *)

Lemma arriving_inv o t0 :
  arriving o t0 = true -> pc t0 = [] /\ exists td, todo t0 = o :: td.
Proof.
  unfold arriving. destruct (pc t0); [|discriminate].
  destruct (todo t0) as [|o' td]; [discriminate|].
  destruct o, o'; intros H; try discriminate H; split; eauto.
Qed.

(** A thread arriving at a call whose first statement acquires a taken
    semaphore has no step. *)
Lemma arriving_waits v L o t0 g c :
  variant_of (m_mode L) = v -> arriving o t0 = true ->
  body v o = Call (Acq g) :: c -> avail g L = 0 ->
  thread_step L t0 = None.
Proof.
  intros Hv Ha Hb H0. apply arriving_inv in Ha as [Hpc [td Htd]].
  unfold thread_step. rewrite (fetch_body _ _ _ Hv), Hpc, Htd. simpl.
  rewrite Hb. unfold step_stmt, do_call, Semaphore.Acquire. simpl.
  unfold avail in H0. rewrite H0. reflexivity.
Qed.

(** No writer is about to take [m_order] for its group while another is
    counted in [m_writecount] and is not. *)
Lemma Inv_order_taken st i ti :
  Inv Second st -> pool st !! i = Some ti ->
  counted Second c_writecount ti = 1 -> hold g_order ti = 0 ->
  avail g_order (lk st) = 0.
Proof.
  intros [Hm Hwf Hr Hg Hc Hp] Hi Hci Hhi.
  pose proof (pool_static _ _ _ Hm Hwf) as Hst.
  assert (Forall (fun a => 0 <= counted Second c_writecount a) (pool st))
    as Hcn.
  { eapply Forall_impl; [exact Hst|]. intros a Ha.
    apply (st_counted _ _ _ Ha c_writecount). }
  assert (Forall (fun a => 0 <= hold g_order a) (pool st)) as Hge.
  { apply Forall_lookup. intros j a Hj.
    destruct (Z_lt_le_dec (hold g_order a) 0) as [Hneg|]; [|assumption].
    exfalso.
    pose proof (Hp g_order c_writecount j a eq_refl Hj Hneg) as Hone.
    destruct (st_pending _ _ _ (Forall_lookup_1 _ _ _ _ Hst Hj)
                g_order c_writecount eq_refl Hneg) as [_ Hca].
    assert (j <> i) as Hne by (intros ->; rewrite Hi in Hj;
                               injection Hj as <-; lia).
    pose proof (sumZ_lookup2_le _ _ _ _ _ _ Hcn Hne Hj Hi) as Hle.
    rewrite <- (Hc c_writecount) in Hle. simpl in Hone, Hle. lia. }
  pose proof (sumZ_nonneg _ _ Hge) as Hs.
  pose proof (sumZ_lookup_le _ _ _ _ Hcn Hi) as Hle.
  rewrite <- (Hc c_writecount) in Hle. simpl in Hle.
  pose proof (Hg g_order) as E. simpl in E.
  destruct (Z.ltb_spec 0 (m_writecount (lk st))); [|lia].
  pose proof (Hr g_order). lia.
Qed.

Lemma variant_second mode : mode = WritersPriority -> variant_of mode = Second.
Proof. intros ->. reflexivity. Qed.

Lemma variant_third mode :
  mode <> ReadersPriority -> mode <> WritersPriority ->
  variant_of mode = Third.
Proof.
  intros H1 H2. unfold variant_of, switch.
  destruct (Z.eqb_spec mode ReadersPriority); [contradiction|].
  destruct (Z.eqb_spec mode WritersPriority); [contradiction|]. reflexivity.
Qed.

(** X8. With [m_mode = WritersPriority], in every interleaving of threads
    whose calls are paired: while a writer is between [AcquireExclusive]
    and its [ReleaseExclusive], or has counted itself in [m_writecount] and
    only waits for the resource, [m_order] is taken and a thread arriving
    at [AcquireShared] has no step.  Readers that arrive after a writer
    wait for it. *)
Theorem writers_bar_readers (progs : list (list op)) (sched : list nat)
    (st : state) (i : nat) (ti : thread) :
  forallb paired progs = true ->
  run sched (init WritersPriority progs) = Some st ->
  pool st !! i = Some ti ->
  in_exclusive ti = true \/ awaiting_resource ti = true ->
  avail g_order (lk st) = 0
  /\ (forall j tj,
        pool st !! j = Some tj -> arriving OpAcquireShared tj = true ->
        thread_step (lk st) tj = None).
Proof.
  intros Hp Hrun Hi Hti.
  pose proof (Inv_reach _ progs sched st Hp Hrun) as HI.
  change (variant_of WritersPriority) with Second in HI.
  assert (avail g_order (lk st) = 0) as H0.
  { apply (Inv_order_taken st i ti HI Hi).
    - destruct Hti as [H|H].
      + apply returned_inv in H as [Hc Hpc].
        unfold counted. rewrite Hc, Hpc. reflexivity.
      + unfold awaiting_resource in H. unfold counted.
        destruct (cur ti) as [[]|]; try discriminate H.
        destruct (pc ti) as [|[[[]|]| |] [|]]; try discriminate H.
        reflexivity.
    - destruct Hti as [H|H].
      + apply returned_inv in H as [Hc Hpc].
        unfold hold. rewrite Hc, Hpc. reflexivity.
      + unfold awaiting_resource in H. unfold hold.
        destruct (cur ti) as [[]|]; try discriminate H.
        destruct (pc ti) as [|[[[]|]| |] [|]]; try discriminate H.
        reflexivity. }
  split; [exact H0|].
  intros j tj _ Ha.
  exact (arriving_waits Second _ _ _ _ _ (inv_mode _ _ HI) Ha eq_refl H0).
Qed.

Lemma writers_bar_readers_witness :
  forallb paired demo_progs3 = true
  /\ run demo_writer_waits (init WritersPriority demo_progs3)
     = Some demo_state_writer_waits
  /\ avail g_order (lk demo_state_writer_waits) = 0
  /\ thread_step (lk demo_state_writer_waits) (spawn reader) = None.
Proof.
  split; [reflexivity|]. split; [vm_compute; reflexivity|].
  destruct (writers_bar_readers demo_progs3 demo_writer_waits
              demo_state_writer_waits 1
              {| cur := Some OpAcquireExclusive;
                 pc := [Call (Acq g_resource)];
                 todo := [OpReleaseExclusive] |}
              eq_refl ltac:(vm_compute; reflexivity) eq_refl
              (or_intror eq_refl)) as [H0 Hj].
  split; [exact H0|].
  apply (Hj 2%nat (spawn reader)); reflexivity.
Defined.

Lemma Inv_order_held v st i ti :
  Inv v st -> m_writecount (lk st) = 0 ->
  pool st !! i = Some ti -> hold g_order ti = 1 ->
  avail g_order (lk st) = 0.
Proof.
  intros [Hm Hwf Hr Hg Hc Hp] Hwc Hi Hhi.
  assert (Forall (fun a => 0 <= hold g_order a) (pool st)) as Hge.
  { apply Forall_lookup. intros j a Hj.
    destruct (Z_lt_le_dec (hold g_order a) 0) as [Hneg|]; [|assumption].
    pose proof (Hp g_order c_writecount j a eq_refl Hj Hneg) as Hone.
    simpl in Hone. lia. }
  pose proof (sumZ_lookup_le _ _ _ _ Hge Hi) as Hle.
  pose proof (Hg g_order) as E. simpl in E. rewrite Hwc in E. simpl in E.
  pose proof (Hr g_order). lia.
Qed.

(** X9. With a mode that is neither [ReadersPriority] nor
    [WritersPriority], in every interleaving of threads whose calls are
    paired: while a writer inside [AcquireExclusive] has acquired [m_order]
    and not yet the resource, [m_order] is taken and a thread arriving at
    [AcquireShared] or at [AcquireExclusive] has no step.  Nobody who
    arrives later overtakes a writer that waits. *)
Theorem fair_order_queue (mode : RWLockMode) (progs : list (list op))
    (sched : list nat) (st : state) (i : nat) (ti : thread) :
  mode <> ReadersPriority -> mode <> WritersPriority ->
  forallb paired progs = true ->
  run sched (init mode progs) = Some st ->
  pool st !! i = Some ti -> queued_writer ti = true ->
  avail g_order (lk st) = 0
  /\ (forall j tj,
        pool st !! j = Some tj ->
        arriving OpAcquireShared tj = true
        \/ arriving OpAcquireExclusive tj = true ->
        thread_step (lk st) tj = None).
Proof.
  intros H1 H2 Hp Hrun Hi Hq.
  pose proof (Inv_reach _ progs sched st Hp Hrun) as HI.
  rewrite (variant_third mode H1 H2) in HI.
  assert (m_writecount (lk st) = 0) as Hwc.
  { refine (run_frame m_writecount Third
              (fun L t0 L' t' E1 E2 E3 =>
                 proj2 (proj1 (thread_step_frame _ _ _ _ _ E1 E2 E3)
                          ltac:(discriminate)))
              sched (init mode progs) st _ _ Hrun).
    - apply init_in_call.
    - apply (variant_third mode H1 H2). }
  assert (avail g_order (lk st) = 0) as H0.
  { apply (Inv_order_held Third st i ti HI Hwc Hi).
    unfold queued_writer in Hq. unfold hold.
    destruct (cur ti) as [[]|]; try discriminate Hq.
    destruct (pc ti) as [|[[[]|]| |] [|[[|[]]| |] [|]]]; try discriminate Hq.
    reflexivity. }
  split; [exact H0|].
  intros j tj _ [Ha|Ha].
  - exact (arriving_waits Third _ _ _ _ _ (inv_mode _ _ HI) Ha eq_refl H0).
  - exact (arriving_waits Third _ _ _ _ _ (inv_mode _ _ HI) Ha eq_refl H0).
Qed.

Lemma fair_order_queue_witness :
  FairOrder <> ReadersPriority /\ FairOrder <> WritersPriority
  /\ forallb paired demo_progs3 = true
  /\ run demo_writer_queued (init FairOrder demo_progs3)
     = Some demo_state_writer_queued
  /\ avail g_order (lk demo_state_writer_queued) = 0
  /\ thread_step (lk demo_state_writer_queued) (spawn reader) = None.
Proof.
  assert (FairOrder <> ReadersPriority) as H1 by (vm_compute; discriminate).
  assert (FairOrder <> WritersPriority) as H2 by (vm_compute; discriminate).
  split; [exact H1|]. split; [exact H2|].
  split; [reflexivity|]. split; [vm_compute; reflexivity|].
  destruct (fair_order_queue FairOrder demo_progs3 demo_writer_queued
              demo_state_writer_queued 1
              {| cur := Some OpAcquireExclusive;
                 pc := [Call (Acq g_resource); Call (Rel g_order)];
                 todo := [OpReleaseExclusive] |}
              H1 H2 eq_refl ltac:(vm_compute; reflexivity) eq_refl eq_refl)
    as [H0 Hj].
  split; [exact H0|].
  apply (Hj 2%nat (spawn reader)); [reflexivity | left; reflexivity].
Defined.

Lemma arriving_not_counted v t0 k :
  wf_thread v t0 -> arriving OpAcquireShared t0 = true
  \/ arriving OpAcquireExclusive t0 = true ->
  counted v k t0 = 0.
Proof.
  intros [Hin Htd] Ha.
  assert (pc t0 = [] /\ exists o td,
            todo t0 = o :: td
            /\ (o = OpAcquireShared \/ o = OpAcquireExclusive))
    as [Hpc (o & td & Ht & Ho)].
  { destruct Ha as [Ha|Ha]; apply arriving_inv in Ha as [Hpc [td Ht]];
      (split; [exact Hpc|]); eauto 6. }
  unfold todo_paired in Htd. unfold counted. rewrite Hpc.
  destruct (cur t0) as [o'|]; [|reflexivity].
  rewrite Ht in Htd.
  destruct o', Ho as [-> | ->]; try discriminate Htd;
    destruct k, v; reflexivity.
Qed.

(** X10. With [m_mode = ReadersPriority], in every interleaving of no more
    than [LONG_MAX] threads whose calls are paired: while a reader is
    inside and [m_rmutex] is available, a thread arriving at [AcquireShared]
    gets through it in three steps of its own, whatever writers wait,
    without touching the resource, which stays taken. *)
Theorem readers_admit_readers (progs : list (list op)) (sched : list nat)
    (st : state) (i j : nat) (ti tj : thread) :
  forallb paired progs = true ->
  run sched (init ReadersPriority progs) = Some st ->
  Z.of_nat (length progs) <= LONG_MAX ->
  pool st !! i = Some ti -> in_shared ti = true ->
  pool st !! j = Some tj -> arriving OpAcquireShared tj = true ->
  avail g_rmutex (lk st) = 1 ->
  exists st' tj',
    run [j; j; j] st = Some st'
    /\ pool st' !! j = Some tj' /\ in_shared tj' = true
    /\ avail g_resource (lk st') = 0
    /\ m_readcount (lk st') = m_readcount (lk st) + 1.
Proof.
  intros Hp Hrun Hlen Hi Hsh Hj Ha Hrm.
  pose proof (Inv_reach _ progs sched st Hp Hrun) as HI.
  change (variant_of ReadersPriority) with First in HI.
  destruct (Inv_readers First st i ti HI Hi Hsh) as [_ Hrc].
  pose proof (Inv_resource_taken First st i ti HI Hi (or_intror Hsh)) as Hres.
  pose proof HI as [Hm Hwf Hr Hg Hc _].
  pose proof (pool_static _ _ _ Hm Hwf) as Hst.
  assert (m_readcount (lk st) < LONG_MAX) as Hmax.
  { assert (Forall (fun a => counted First c_readcount a <= 1) (pool st))
      as Hle.
    { eapply Forall_impl; [exact Hst|]. intros a Ha'.
      apply (st_counted _ _ _ Ha' c_readcount). }
    pose proof (sumZ_lookup_slack _ _ _ _ Hle Hj) as Hs.
    rewrite <- (Hc c_readcount) in Hs. simpl in Hs.
    rewrite (arriving_not_counted First tj c_readcount
               (Forall_lookup_1 _ _ _ _ Hwf Hj) (or_introl Ha)) in Hs.
    rewrite (run_length _ _ _ Hrun) in Hs. simpl in Hs.
    rewrite length_fmap in Hs. lia. }
  apply arriving_inv in Ha as [Hpc [td Htd]].
  destruct tj as [cu c td']. simpl in Hpc, Htd. subst c td'.
  destruct st as [L ts]. simpl in *.
  assert (call OpAcquireShared L
          = Done (set_count c_readcount (m_readcount L + 1) L,
                  [EvCall (Acq g_rmutex);
                   EvInc c_readcount (m_readcount L + 1);
                   EvCall (Rel g_rmutex)])) as Hcall.
  { rewrite call_body, Hm. clear - Hrm Hrc Hmax.
    destruct L as [md [ao] [ar] [arm] [awm] rc wc].
    unfold avail in Hrm. simpl in *. subst arm.
    seq_view. zbool; try lia; reflexivity. }
  pose proof (call_at _ _ _ _ _ _ _ _ Hj Hcall) as R. simpl in R.
  eexists _, _. split; [exact R|]. simpl.
  split; [apply list_lookup_insert_eq; eapply lookup_lt_Some, Hj|].
  split; [reflexivity|]. split; [|reflexivity].
  destruct L as [md [ao] [ar] [arm] [awm] rc wc]. exact Hres.
Qed.

Lemma readers_admit_readers_witness :
  forallb paired demo_progs3 = true
  /\ run demo_reader_inside (init ReadersPriority demo_progs3)
     = Some demo_state_reader_inside
  /\ Z.of_nat (length demo_progs3) <= LONG_MAX
  /\ thread_step (lk demo_state_reader_inside) (spawn writer) = None
  /\ exists st' tj',
       run [2; 2; 2]%nat demo_state_reader_inside = Some st'
       /\ pool st' !! 2%nat = Some tj' /\ in_shared tj' = true
       /\ avail g_resource (lk st') = 0
       /\ m_readcount (lk st') = m_readcount (lk demo_state_reader_inside) + 1.
Proof.
  assert (Z.of_nat (length demo_progs3) <= LONG_MAX) as Hlen
    by (vm_compute; discriminate).
  split; [reflexivity|]. split; [vm_compute; reflexivity|].
  split; [exact Hlen|]. split; [reflexivity|].
  apply (readers_admit_readers demo_progs3 demo_reader_inside
           demo_state_reader_inside 0 2
           {| cur := Some OpAcquireShared; pc := [];
              todo := [OpReleaseShared] |}
           (spawn reader)
           eq_refl ltac:(vm_compute; reflexivity) Hlen
           eq_refl eq_refl eq_refl eq_refl eq_refl).
Defined.

(** ** Readers share *)

Lemma reader_enters mode k :
  0 <= k < LONG_MAX ->
  exists tr,
    call OpAcquireShared (reading mode k) = Done (reading mode (k + 1), tr).
Proof.
  intros Hk. rewrite call_body. simpl m_mode.
  destruct (variant_of mode); unfold reading; seq_view; zbool; try lia;
    eexists; reflexivity.
Qed.

Lemma readers_enter mode (m : nat) : forall inside,
  Z.of_nat (length inside) + Z.of_nat m <= LONG_MAX ->
  forallb in_shared inside = true ->
  exists sched final,
    run sched {| lk := reading mode (Z.of_nat (length inside));
                 pool := inside ++ replicate m (spawn reader) |}
    = Some {| lk := reading mode (Z.of_nat (length inside + m));
              pool := final |}
    /\ forallb in_shared final = true
    /\ length final = (length inside + m)%nat.
Proof.
  induction m as [|m IH]; intros inside Hle Hin.
  - exists [], inside. simpl. rewrite app_nil_r, Nat.add_0_r.
    split; [reflexivity|]. split; [exact Hin | reflexivity].
  - destruct (reader_enters mode (Z.of_nat (length inside))) as [tr Hc];
      [lia|].
    assert ((inside ++ replicate (S m) (spawn reader)) !! length inside
            = Some {| cur := None; pc := [];
                      todo := OpAcquireShared :: [OpReleaseShared] |}) as Hi.
    { rewrite lookup_app_r by lia. rewrite Nat.sub_diag. reflexivity. }
    pose proof (call_at _ _ _ _ _ _ _ _ Hi Hc) as R1.
    destruct (IH (inside ++ [reader_inside])) as (s2 & final & R2 & Hf & Hl).
    { rewrite length_app. simpl. lia. }
    { rewrite forallb_app, Hin. reflexivity. }
    rewrite length_app in R2, Hl. simpl in R2, Hl.
    exists (replicate (length tr) (length inside) ++ s2), final.
    split; [|split; [exact Hf | lia]].
    rewrite run_app, R1. simpl.
    replace (length inside + S m)%nat with (length inside + 1 + m)%nat by lia.
    rewrite <- R2. f_equal. f_equal.
    + f_equal. lia.
    + rewrite <- app_assoc. simpl.
      replace (length inside) with (length inside + 0)%nat at 1 by lia.
      rewrite insert_app_r. reflexivity.
Qed.

(** X11. On a lock of any mode, any number of readers, up to [LONG_MAX],
    can be between [AcquireShared] and [ReleaseShared] together: there is
    an interleaving after which all of them are, and [m_readcount] is their
    number. *)
Theorem readers_share (mode : RWLockMode) (n : nat) :
  Z.of_nat n <= LONG_MAX ->
  exists sched st,
    run sched (init mode (replicate n reader)) = Some st
    /\ length (pool st) = n
    /\ forallb in_shared (pool st) = true
    /\ m_readcount (lk st) = Z.of_nat n.
Proof.
  intros Hn.
  destruct (readers_enter mode n [] ltac:(simpl; lia) eq_refl)
    as (sched & final & Hrun & Hf & Hl).
  exists sched, {| lk := reading mode (Z.of_nat n); pool := final |}.
  split; [|split; [exact Hl | split; [exact Hf | reflexivity]]].
  unfold init. rewrite fmap_replicate. exact Hrun.
Qed.

Lemma readers_share_witness :
  Z.of_nat 3 <= LONG_MAX
  /\ exists sched st,
       run sched (init WritersPriority (replicate 3 reader)) = Some st
       /\ length (pool st) = 3%nat
       /\ forallb in_shared (pool st) = true
       /\ m_readcount (lk st) = Z.of_nat 3.
Proof.
  assert (Z.of_nat 3 <= LONG_MAX) as H by (vm_compute; discriminate).
  split; [exact H|].
  apply (readers_share WritersPriority 3 H).
Defined.

(** ** Entering a lock that is held *)

Lemma call_acquire_needs L r :
  (call OpAcquireShared L = Done r ->
   0 < avail g_rmutex L
   /\ (m_readcount L + 1 = 1 -> 0 < avail g_resource L))
  /\ (call OpAcquireExclusive L = Done r -> 0 < avail g_resource L).
Proof.
  rewrite !call_body. destruct L as [md [ao] [ar] [arm] [awm] rc wc].
  simpl m_mode. unfold avail. simpl.
  split; destruct (variant_of md); seq_view; zbool; try discriminate;
    intros _; lia.
Qed.

(** X12. In every interleaving of threads whose calls are paired, on a lock
    of any mode: while a thread is between [AcquireExclusive] and its
    release, neither [AcquireShared] nor [AcquireExclusive], run from that
    state by a caller alone, returns; while a thread is between
    [AcquireShared] and its release, [AcquireExclusive] does not return.  A
    thread that holds the lock and asks for it again exclusively, or holds
    it exclusively and asks for it again, waits for itself. *)
Theorem held_lock_admits_nobody (mode : RWLockMode) (progs : list (list op))
    (sched : list nat) (st : state) (i : nat) (ti : thread) :
  forallb paired progs = true ->
  run sched (init mode progs) = Some st ->
  pool st !! i = Some ti ->
  (in_exclusive ti = true ->
   forall r, call OpAcquireShared (lk st) <> Done r
             /\ call OpAcquireExclusive (lk st) <> Done r)
  /\ (in_shared ti = true ->
      forall r, call OpAcquireExclusive (lk st) <> Done r).
Proof.
  intros Hp Hrun Hi.
  pose proof (Inv_reach mode progs sched st Hp Hrun) as HI.
  pose proof HI as [Hm Hwf Hr Hg Hc _].
  pose proof (pool_static _ _ _ Hm Hwf) as Hst.
  split.
  - intros Hex r.
    pose proof (Inv_resource_taken _ st i ti HI Hi (or_introl Hex)) as Hres.
    split; intros Hcall;
      [|apply (proj2 (call_acquire_needs (lk st) r)) in Hcall; lia].
    apply (proj1 (call_acquire_needs (lk st) r)) in Hcall as [Hrm Hfirst].
    assert (0 <= m_readcount (lk st)) as Hrc0.
    { rewrite (Hc c_readcount : m_readcount _ = _). apply sumZ_nonneg.
      eapply Forall_impl; [exact Hst|]. intros a Ha.
      apply (st_counted _ _ _ Ha c_readcount). }
    pose proof (Inv_hpos _ st HI) as Hh. simpl in Hh.
    destruct (Z.ltb_spec 0 (m_readcount (lk st))); [|lia].
    pose proof (in_exclusive_hold ti Hex) as Hti.
    pose proof (sumZ_lookup_le (hpos g_resource) _ _ _ (hpos_nonneg _ _) Hi)
      as Hle.
    destruct (sumZ_pos_lookup (pend g_resource) (pool st)) as (j & a & Hj & Ha);
      [lia|].
    assert (hold g_resource a < 0) as Hneg.
    { unfold pend in Ha. destruct (Z.ltb_spec (hold g_resource a) 0); lia. }
    destruct (st_pending _ _ _ (Forall_lookup_1 _ _ _ _ Hst Hj)
                g_resource c_readcount eq_refl Hneg) as [Hha _].
    simpl in Hha.
    assert (hold g_rmutex a <= sumZ (hold g_rmutex) (pool st)) as Hle'.
    { eapply sumZ_lookup_le; [|exact Hj].
      eapply Forall_impl; [exact Hst|]. intros b Hb.
      apply (st_guard _ _ _ Hb c_readcount). }
    pose proof (Hg g_rmutex) as E. simpl in E. lia.
  - intros Hsh r Hcall.
    pose proof (Inv_resource_taken _ st i ti HI Hi (or_intror Hsh)) as Hres.
    apply (proj2 (call_acquire_needs (lk st) r)) in Hcall. lia.
Qed.

Lemma held_lock_admits_nobody_witness :
  forallb paired demo_progs = true
  /\ run demo_writing (init FairOrder demo_progs) = Some demo_state_writing
  /\ call OpAcquireExclusive (lk demo_state_writing) = Waits.
Proof.
  split; [reflexivity|]. split; [vm_compute; reflexivity|].
  pose proof (proj1 (held_lock_admits_nobody FairOrder demo_progs
                       demo_writing demo_state_writing 1
                       {| cur := Some OpAcquireExclusive; pc := [];
                          todo := [OpReleaseExclusive] |}
                       eq_refl ltac:(vm_compute; reflexivity) eq_refl)
                eq_refl) as H.
  destruct (call OpAcquireExclusive (lk demo_state_writing))
    as [r| |] eqn:E.
  - destruct (proj2 (H r) eq_refl).
  - reflexivity.
  - vm_compute in E. discriminate E.
Defined.

(** ** A release that answers no acquisition *)

Lemma misuse_calls mode :
  exists L1 L2 L3 tr1 tr2 tr3,
    call OpReleaseShared (construct (Some mode)) = Done (L1, tr1)
    /\ call OpAcquireShared L1 = Done (L2, tr2)
    /\ call OpAcquireExclusive L2 = Done (L3, tr3).
Proof.
  assert (forall o L, m_mode L = mode ->
            call o L = exec (body (variant_of mode) o) L) as Hb.
  { intros o L <-. apply call_body. }
  destruct (variant_of mode).
  all: eexists _, _, _, _, _, _.
  all: (split; [rewrite Hb by reflexivity; reflexivity|]).
  all: (split; [rewrite Hb by reflexivity; reflexivity|]).
  all: rewrite Hb by reflexivity; reflexivity.
Qed.

(** X13. The lock keeps no record of who holds it, and pairing is needed
    for mutual exclusion: on a lock of any mode, when a thread calls
    [ReleaseShared] first and [AcquireShared] next, and a second thread
    calls [AcquireExclusive], there is an interleaving in which every call
    returns, so that the first thread is between [AcquireShared] and a
    release and the second between [AcquireExclusive] and a release at the
    same instant. *)
Theorem unpaired_release_breaks_exclusion (mode : RWLockMode) :
  exists sched st t0 t1,
    run sched (init mode misuse_progs) = Some st
    /\ pool st = [t0; t1]
    /\ in_shared t0 = true /\ in_exclusive t1 = true.
Proof.
  destruct (misuse_calls mode)
    as (L1 & L2 & L3 & tr1 & tr2 & tr3 & H1 & H2 & H3).
  pose proof (call_at _ _ _ _ None [OpAcquireShared]
                [spawn [OpReleaseShared; OpAcquireShared];
                 spawn [OpAcquireExclusive]] 0%nat eq_refl H1) as R1.
  pose proof (call_at _ _ _ _ (Some OpReleaseShared) []
                [ {| cur := Some OpReleaseShared; pc := [];
                     todo := [OpAcquireShared] |};
                  spawn [OpAcquireExclusive] ] 0%nat eq_refl H2) as R2.
  pose proof (call_at _ _ _ _ None []
                [ {| cur := Some OpAcquireShared; pc := []; todo := [] |};
                  spawn [OpAcquireExclusive] ] 1%nat eq_refl H3) as R3.
  simpl in R1, R2, R3.
  exists (replicate (length tr1) 0%nat
          ++ replicate (length tr2) 0%nat
          ++ replicate (length tr3) 1%nat),
    {| lk := L3;
       pool := [ {| cur := Some OpAcquireShared; pc := []; todo := [] |};
                 {| cur := Some OpAcquireExclusive; pc := []; todo := [] |} ]
    |},
    {| cur := Some OpAcquireShared; pc := []; todo := [] |},
    {| cur := Some OpAcquireExclusive; pc := []; todo := [] |}.
  split; [|split; [reflexivity | split; reflexivity]].
  unfold init, misuse_progs. simpl.
  rewrite run_app, R1. simpl. rewrite run_app, R2. simpl. exact R3.
Qed.
